(** * Session authenticator (src/App.tsx): reducer, controller and route guards

    A shallow embedding of the session state machine of [src/App.tsx]:
    [authReducer], the three controller operations of [AuthProvider]
    (the mount effect, [login], [logout]) and the two route guards
    [ProtectedRoute] and [PublicRoute], together with the part of the
    JavaScript platform they call: strings of UTF-16 code units,
    [JSON.parse] / [JSON.stringify] and [localStorage].

    The controller is written in a small state-and-exception monad over
    the reducer's state and the store, so that [try] / [catch] read as in
    the source. Two things come from outside the program and are inputs
    of the model: the string [Math.random().toString(36)] and whether
    the browser accepts a write to [localStorage] ([setItem] throws
    QuotaExceededError when it does not). Calls of [login] and [logout]
    run one after the other: while a login is in flight [isLoading] is
    set and both guards hide the pages that hold the controls. *)

From Stdlib Require Import NArith List String Ascii Lia.
From stdpp Require Import gmap strings list fin_maps.
Import ListNotations.

Set Warnings "-register-all".

(* ===================================================================== *)
(** ** JavaScript strings *)
(* ===================================================================== *)

Module JS.

(** A JavaScript string is a sequence of UTF-16 code units. *)
Abbreviation jsstring := (list N).

(** An ASCII literal of the source, as code units. *)
Definition lit (s : string) : jsstring :=
  List.map N_of_ascii (list_ascii_of_string s).
Arguments lit s%_string.

(** [s.substr(start, len)] for non-negative arguments. *)
Definition substr (start len : nat) (s : jsstring) : jsstring :=
  firstn len (skipn start s).

(** [ToString] of a value of type [string | null], the coercion
    [JSON.parse] applies to its argument. *)
Definition to_string (v : option jsstring) : jsstring :=
  match v with
  | Some s => s
  | None => lit "null"
  end.

(** Truthiness of a value of type [string | null], as tested by
    [if (savedUser)]: [null] and the empty string are falsy. *)
Definition truthy (v : option jsstring) : bool :=
  match v with
  | None => false
  | Some [] => false
  | Some (_ :: _) => true
  end.

End JS.

Export JS.

(* ===================================================================== *)
(** ** JSON *)
(* ===================================================================== *)

Module JSON.

Local Open Scope N_scope.

(** JavaScript values that [JSON.parse] can produce. [null] is a value of
    its own. A number is kept as its lexeme (its value is a double, which
    no claim here looks at). An object is the list of its properties in
    source order; [get] reads the last binding of a key, as a later
    duplicate overrides an earlier one. *)
Inductive JSValue : Type :=
| JNull
| JBool (b : bool)
| JNumber (lexeme : jsstring)
| JString (s : jsstring)
| JArray (elems : list JSValue)
| JObject (props : list (jsstring * JSValue)).

Fixpoint get_prop (k : jsstring) (props : list (jsstring * JSValue)) : option JSValue :=
  match props with
  | [] => None
  | (k', v) :: rest =>
      match get_prop k rest with
      | Some v' => Some v'
      | None => if bool_decide (k = k') then Some v else None
      end
  end.

(** [o[k]] for an object; [None] stands for [undefined]. *)
Definition get (k : jsstring) (v : JSValue) : option JSValue :=
  match v with
  | JObject props => get_prop k props
  | _ => None
  end.

(** *** Code-unit classes *)

Definition QUOTE : N := 34.      (* double quote *)
Definition BACKSLASH : N := 92.  (* reverse solidus *)
Definition SOLIDUS : N := 47.
Definition COMMA : N := 44.
Definition COLON : N := 58.
Definition LBRACKET : N := 91.
Definition RBRACKET : N := 93.
Definition LBRACE : N := 123.
Definition RBRACE : N := 125.
Definition MINUS : N := 45.
Definition PLUS : N := 43.
Definition DOT : N := 46.
Definition ZERO : N := 48.

Definition is_ws (c : N) : bool :=
  (c =? 9) || (c =? 10) || (c =? 13) || (c =? 32).

Definition is_digit (c : N) : bool := (48 <=? c) && (c <=? 57).

Definition is_digit19 (c : N) : bool := (49 <=? c) && (c <=? 57).

(** Leading (high) and trailing (low) surrogates. *)
Definition is_high (c : N) : bool := (55296 <=? c) && (c <=? 56319).
Definition is_low (c : N) : bool := (56320 <=? c) && (c <=? 57343).

(** *** JSON.stringify on strings: QuoteJSONString *)

(** The two-character escapes of the table of QuoteJSONString: the code
    unit that follows the backslash. *)
Definition short_escape (c : N) : option N :=
  if c =? 8 then Some 98          (* backspace: b *)
  else if c =? 9 then Some 116    (* tab: t *)
  else if c =? 10 then Some 110   (* line feed: n *)
  else if c =? 12 then Some 102   (* form feed: f *)
  else if c =? 13 then Some 114   (* carriage return: r *)
  else if c =? 34 then Some 34    (* double quote *)
  else if c =? 92 then Some 92    (* reverse solidus *)
  else None.

(** Lowercase hexadecimal digit of a value below 16. *)
Definition hex_digit (n : N) : N :=
  if n <? 10 then 48 + n else 87 + n.

(** UnicodeEscape: [\uXXXX] with four lowercase hexadecimal digits. *)
Definition unicode_escape (c : N) : jsstring :=
  [BACKSLASH; 117;
   hex_digit ((c / 4096) mod 16); hex_digit ((c / 256) mod 16);
   hex_digit ((c / 16) mod 16); hex_digit (c mod 16)].

(** The characters between the quotes. A leading surrogate followed by a
    trailing one is a pair and is copied; a lone surrogate is escaped. *)
Fixpoint quote_units (s : jsstring) : jsstring :=
  match s with
  | [] => []
  | c :: rest =>
      match short_escape c with
      | Some e => BACKSLASH :: e :: quote_units rest
      | None =>
          if c <? 32 then unicode_escape c ++ quote_units rest
          else if is_high c then
            match rest with
            | d :: rest' =>
                if is_low d then c :: d :: quote_units rest'
                else unicode_escape c ++ quote_units rest
            | [] => unicode_escape c
            end
          else if is_low c then unicode_escape c ++ quote_units rest
          else c :: quote_units rest
      end
  end.

Definition quote (s : jsstring) : jsstring :=
  QUOTE :: quote_units s ++ [QUOTE].

(** Joins the pieces with commas. *)
Fixpoint join (pieces : list jsstring) : jsstring :=
  match pieces with
  | [] => []
  | [p] => p
  | p :: ps => p ++ COMMA :: join ps
  end.

(** [JSON.stringify(v)] without indentation, for the values above. A
    number prints as its lexeme; the canonical printing of doubles is not
    modelled, and [login] only prints objects of strings. *)
Fixpoint JSON_stringify (v : JSValue) : jsstring :=
  match v with
  | JNull => lit "null"
  | JBool true => lit "true"
  | JBool false => lit "false"
  | JNumber lexeme => lexeme
  | JString s => quote s
  | JArray elems =>
      LBRACKET :: join (List.map JSON_stringify elems) ++ [RBRACKET]
  | JObject props =>
      LBRACE ::
        join (List.map (fun kv => quote (fst kv) ++ COLON :: JSON_stringify (snd kv)) props)
        ++ [RBRACE]
  end.

(** *** JSON.parse *)

Fixpoint skip_ws (inp : jsstring) : jsstring :=
  match inp with
  | c :: rest => if is_ws c then skip_ws rest else inp
  | [] => []
  end.

(** Value of a hexadecimal digit, either case. *)
Definition hex_val (c : N) : option N :=
  if (48 <=? c) && (c <=? 57) then Some (c - 48)
  else if (97 <=? c) && (c <=? 102) then Some (c - 87)
  else if (65 <=? c) && (c <=? 70) then Some (c - 55)
  else None.

Definition hex4 (h1 h2 h3 h4 : N) : option N :=
  match hex_val h1, hex_val h2, hex_val h3, hex_val h4 with
  | Some a, Some b, Some c, Some d => Some (4096 * a + 256 * b + 16 * c + d)
  | _, _, _, _ => None
  end.

(** The code unit denoted by a single-character escape. *)
Definition simple_escape (e : N) : option N :=
  if e =? 34 then Some 34
  else if e =? 92 then Some 92
  else if e =? 47 then Some 47
  else if e =? 98 then Some 8
  else if e =? 102 then Some 12
  else if e =? 110 then Some 10
  else if e =? 114 then Some 13
  else if e =? 116 then Some 9
  else None.

Definition cons_unit (c : N) (r : option (jsstring * jsstring)) : option (jsstring * jsstring) :=
  match r with
  | Some (s, rest) => Some (c :: s, rest)
  | None => None
  end.

(** A JSONString after its opening quote: the string and the input left
    after the closing quote. Control characters must be escaped. *)
Fixpoint parse_string (inp : jsstring) : option (jsstring * jsstring) :=
  match inp with
  | [] => None
  | c :: rest =>
      if c =? QUOTE then Some ([], rest)
      else if c =? BACKSLASH then
        match rest with
        | [] => None
        | e :: rest1 =>
            if e =? 117 then
              match rest1 with
              | h1 :: h2 :: h3 :: h4 :: rest2 =>
                  match hex4 h1 h2 h3 h4 with
                  | Some u => cons_unit u (parse_string rest2)
                  | None => None
                  end
              | _ => None
              end
            else
              match simple_escape e with
              | Some u => cons_unit u (parse_string rest1)
              | None => None
              end
        end
      else if c <? 32 then None
      else cons_unit c (parse_string rest)
  end.

(** Longest prefix of digits. *)
Fixpoint digits (inp : jsstring) : jsstring * jsstring :=
  match inp with
  | c :: rest =>
      if is_digit c then let (ds, r) := digits rest in (c :: ds, r)
      else ([], inp)
  | [] => ([], [])
  end.

(** A JSONNumber: an optional minus sign, then a single zero or a
    non-zero digit followed by digits, then an optional fraction (a dot
    and at least one digit), then an optional exponent (e or E, an
    optional sign and at least one digit). Returns the lexeme and the
    input after it. *)
Definition parse_number (inp : jsstring) : option (jsstring * jsstring) :=
  let (sign, r0) :=
    match inp with
    | c :: r => if c =? MINUS then ([c], r) else ([], inp)
    | [] => ([], inp)
    end in
  match r0 with
  | [] => None
  | d :: r1 =>
      let int_part :=
        if d =? ZERO then Some ([d], r1)
        else if is_digit19 d then let (ds, r) := digits r1 in Some (d :: ds, r)
        else None in
      match int_part with
      | None => None
      | Some (int, r2) =>
          let frac_part :=
            match r2 with
            | p :: r =>
                if p =? DOT then
                  match digits r with
                  | ([], _) => None
                  | (ds, r') => Some (p :: ds, r')
                  end
                else Some ([], r2)
            | [] => Some ([], r2)
            end in
          match frac_part with
          | None => None
          | Some (frac, r3) =>
              let exp_part :=
                match r3 with
                | e :: r =>
                    if (e =? 101) || (e =? 69) then
                      let (sg, r') :=
                        match r with
                        | s :: r' => if (s =? PLUS) || (s =? MINUS) then ([s], r') else ([], r)
                        | [] => ([], r)
                        end in
                      match digits r' with
                      | ([], _) => None
                      | (ds, r'') => Some (e :: sg ++ ds, r'')
                      end
                    else Some ([], r3)
                | [] => Some ([], r3)
                end in
              match exp_part with
              | None => None
              | Some (ex, r4) => Some (sign ++ int ++ frac ++ ex, r4)
              end
          end
      end
  end.

(** Strips a literal prefix. *)
Fixpoint expect (word inp : jsstring) : option jsstring :=
  match word with
  | [] => Some inp
  | w :: word' =>
      match inp with
      | c :: rest => if c =? w then expect word' rest else None
      | [] => None
      end
  end.

(** A JSONValue, the JSONElementList of an array after its first
    bracket and the JSONMemberList of an object after its brace. Each
    call is made on a shorter input or with the same input one level
    down, so [fuel] above twice the input's length is never exhausted. *)
Fixpoint parse_value (fuel : nat) (inp : jsstring) : option (JSValue * jsstring) :=
  match fuel with
  | O => None
  | S fuel' =>
      match skip_ws inp with
      | [] => None
      | c :: rest =>
          if c =? QUOTE then
            match parse_string rest with
            | Some (s, rest') => Some (JString s, rest')
            | None => None
            end
          else if c =? LBRACKET then
            match skip_ws rest with
            | [] => None
            | d :: rest' =>
                if d =? RBRACKET then Some (JArray [], rest')
                else
                  match parse_elements fuel' (d :: rest') with
                  | Some (vs, r) => Some (JArray vs, r)
                  | None => None
                  end
            end
          else if c =? LBRACE then
            match skip_ws rest with
            | [] => None
            | d :: rest' =>
                if d =? RBRACE then Some (JObject [], rest')
                else
                  match parse_members fuel' (d :: rest') with
                  | Some (ps, r) => Some (JObject ps, r)
                  | None => None
                  end
            end
          else if c =? 110 then
            match expect (lit "ull") rest with
            | Some r => Some (JNull, r)
            | None => None
            end
          else if c =? 116 then
            match expect (lit "rue") rest with
            | Some r => Some (JBool true, r)
            | None => None
            end
          else if c =? 102 then
            match expect (lit "alse") rest with
            | Some r => Some (JBool false, r)
            | None => None
            end
          else
            match parse_number (c :: rest) with
            | Some (lexeme, r) => Some (JNumber lexeme, r)
            | None => None
            end
      end
  end

with parse_elements (fuel : nat) (inp : jsstring) : option (list JSValue * jsstring) :=
  match fuel with
  | O => None
  | S fuel' =>
      match parse_value fuel' inp with
      | None => None
      | Some (v, rest) =>
          match skip_ws rest with
          | [] => None
          | c :: rest' =>
              if c =? COMMA then
                match parse_elements fuel' rest' with
                | Some (vs, r) => Some (v :: vs, r)
                | None => None
                end
              else if c =? RBRACKET then Some ([v], rest')
              else None
          end
      end
  end

with parse_members (fuel : nat) (inp : jsstring) : option (list (jsstring * JSValue) * jsstring) :=
  match fuel with
  | O => None
  | S fuel' =>
      match skip_ws inp with
      | [] => None
      | q :: rest =>
          if q =? QUOTE then
            match parse_string rest with
            | None => None
            | Some (k, rest1) =>
                match skip_ws rest1 with
                | [] => None
                | c :: rest2 =>
                    if c =? COLON then
                      match parse_value fuel' rest2 with
                      | None => None
                      | Some (v, rest3) =>
                          match skip_ws rest3 with
                          | [] => None
                          | d :: rest4 =>
                              if d =? COMMA then
                                match parse_members fuel' rest4 with
                                | Some (ps, r) => Some ((k, v) :: ps, r)
                                | None => None
                                end
                              else if d =? RBRACE then Some ([(k, v)], rest4)
                              else None
                          end
                      end
                    else None
                end
            end
          else None
      end
  end.

(** The text of one property, as [JSON_stringify] prints it. *)
Definition member_text (kv : jsstring * JSValue) : jsstring :=
  quote (fst kv) ++ COLON :: JSON_stringify (snd kv).

(** Objects whose properties all hold strings, such as a [User]. *)
Definition string_valued (kv : jsstring * JSValue) : Prop :=
  exists s, snd kv = JString s.

(** Whether [v] has the shape of a stored identity,
    [{id: string, email: string, name: string, avatar: string}]. *)
Definition is_string_prop (k : jsstring) (v : JSValue) : bool :=
  match get k v with
  | Some (JString _) => true
  | _ => false
  end.

Definition is_identity (v : JSValue) : bool :=
  is_string_prop (lit "id") v && is_string_prop (lit "email") v
  && is_string_prop (lit "name") v && is_string_prop (lit "avatar") v.

(** [JSON.parse(text)]: [None] stands for the SyntaxError it throws. *)
Definition JSON_parse (text : jsstring) : option JSValue :=
  match parse_value (2 * length text + 2) text with
  | Some (v, rest) =>
      match skip_ws rest with
      | [] => Some v
      | _ :: _ => None
      end
  | None => None
  end.

End JSON.

Export JSON.

(* ===================================================================== *)
(** ** Session state and the reducer *)
(* ===================================================================== *)

(** Modelled from the spec: the declarations [User], [AuthState] and
    [AuthAction] of [./types.ts], which [src/App.tsx] imports and which is
    not among the sources. The fields are the four of the initial state
    given to [useReducer]; the actions are the four tags [authReducer]
    switches on, with the payloads the dispatch sites pass. A [user] is
    [User | null]: a JavaScript value, [JNull] when absent (the mount
    effect stores whatever [JSON.parse] returns). *)
Record AuthState : Type := mkAuthState {
  user : JSValue;
  isAuthenticated : bool;
  isLoading : bool;
  error : option jsstring
}.

Inductive AuthAction : Type :=
| LOGIN_START
| LOGIN_SUCCESS (payload : JSValue)
| LOGIN_FAILURE (payload : jsstring)
| LOGOUT.

(** [authReducer]: each case spreads [state] and overrides the listed
    fields. (The [default] case returns [state]; no dispatch site
    reaches it.) *)
Definition authReducer (state : AuthState) (action : AuthAction) : AuthState :=
  match action with
  | LOGIN_START =>
      {| user := user state; isAuthenticated := isAuthenticated state;
         isLoading := true; error := None |}
  | LOGIN_SUCCESS payload =>
      {| user := payload; isAuthenticated := true;
         isLoading := false; error := error state |}
  | LOGIN_FAILURE payload =>
      {| user := user state; isAuthenticated := isAuthenticated state;
         isLoading := false; error := Some payload |}
  | LOGOUT =>
      {| user := JNull; isAuthenticated := false;
         isLoading := isLoading state; error := error state |}
  end.

(** The initial state passed to [useReducer]. *)
Definition initialState : AuthState :=
  {| user := JNull; isAuthenticated := false; isLoading := true; error := None |}.

(* ===================================================================== *)
(** ** The controller: [AuthProvider] *)
(* ===================================================================== *)

(** What the controller threads: the reducer's state, the content of
    [localStorage] and, for the record, the actions dispatched so far
    (oldest first). *)
Record World : Type := mkWorld {
  state : AuthState;
  localStorage : gmap jsstring jsstring;
  dispatched : list AuthAction
}.

Inductive Exn : Type :=
| SyntaxError            (* thrown by JSON.parse *)
| QuotaExceededError.    (* thrown by localStorage.setItem *)

(** Computations that read and write the world and may throw. *)
Definition M (A : Type) : Type := World -> (Exn + A) * World.

Definition ret {A : Type} (a : A) : M A := fun w => (inr a, w).

Definition throw {A : Type} (e : Exn) : M A := fun w => (inl e, w).

Definition bind {A B : Type} (m : M A) (k : A -> M B) : M B :=
  fun w =>
    match m w with
    | (inr a, w') => k a w'
    | (inl e, w') => (inl e, w')
    end.

(** [try { body } catch { handler }]: the effects of [body] up to the
    throw are kept. *)
Definition try_catch {A : Type} (body : M A) (handler : Exn -> M A) : M A :=
  fun w =>
    match body w with
    | (inr a, w') => (inr a, w')
    | (inl e, w') => handler e w'
    end.

Declare Scope ctl_scope.
Delimit Scope ctl_scope with ctl.
Notation "'let*' x := m 'in' k" := (bind m (fun x => k))
  (at level 10, x name, m at level 100, k at level 200) : ctl_scope.
Notation "m ;;; k" := (bind m (fun _ => k))
  (at level 100, k at level 200, right associativity) : ctl_scope.
Notation "'try' body 'catch' handler" := (try_catch body handler)
  (at level 10, body at level 200, handler at level 200) : ctl_scope.

Local Open Scope ctl_scope.

(** [dispatch(action)]: the reducer is applied to the current state, in
    the order the dispatches are issued. *)
Definition dispatch (action : AuthAction) : M unit :=
  fun w =>
    (inr tt,
     {| state := authReducer (state w) action;
        localStorage := localStorage w;
        dispatched := dispatched w ++ [action] |}).

(** [localStorage.getItem(key)]: [None] is [null]. *)
Definition getItem (key : jsstring) : M (option jsstring) :=
  fun w => (inr (localStorage w !! key), w).

(** [localStorage.removeItem(key)]. *)
Definition removeItem (key : jsstring) : M unit :=
  fun w =>
    (inr tt,
     {| state := state w;
        localStorage := delete key (localStorage w);
        dispatched := dispatched w |}).

(** [localStorage.setItem(key, value)]. The write throws
    QuotaExceededError, and stores nothing, when the browser cannot fit
    the value; whether it fits is the browser's business and is given by
    [fits]. *)
Definition setItem (fits : bool) (key value : jsstring) : M unit :=
  fun w =>
    if fits then
      (inr tt,
       {| state := state w;
          localStorage := <[key := value]> (localStorage w);
          dispatched := dispatched w |})
    else (inl QuotaExceededError, w).

(** [JSON.parse(text)] as a computation that may throw. *)
Definition JSON_parse_or_throw (text : jsstring) : M JSValue :=
  match JSON_parse text with
  | Some v => ret v
  | None => throw SyntaxError
  end.

(** [await new Promise(resolve => setTimeout(resolve, ms))]: the executor
    only ever resolves, so the await returns and never throws. The delay
    itself is not observable in this model. *)
Definition sleep (ms : N) : M unit := ret tt.

Definition auth_user : jsstring := lit "auth_user".

(** The mount effect of [AuthProvider] ([useEffect(..., [])]), called
    bootstrap in the specification. *)
Definition bootstrap : M unit :=
  let* savedUser := getItem auth_user in
  if truthy savedUser then
    try
      (let* payload := JSON_parse_or_throw (to_string savedUser) in
       dispatch (LOGIN_SUCCESS payload))
    catch (fun _ =>
      removeItem auth_user ;;;
      dispatch LOGOUT)
  else dispatch LOGOUT.

(** What a call of [login] takes from its surroundings: the string
    [Math.random().toString(36)] and whether the browser accepts the
    write to [localStorage]. *)
Record Env : Type := mkEnv {
  random_base36 : jsstring;
  storage_fits : bool
}.

Definition avatar_prefix : jsstring :=
  lit "https://api.dicebear.com/7.x/avataaars/svg?seed=".

(** The object literal [{ id, email, name, avatar }] built by [login]. *)
Definition make_user (env : Env) (email name : jsstring) : JSValue :=
  JObject
    [ (lit "id", JString (substr 2 9 (random_base36 env)));
      (lit "email", JString email);
      (lit "name", JString name);
      (lit "avatar", JString (avatar_prefix ++ name)) ].

Definition failure_message : jsstring :=
  lit "Authentication failed. Please try again.".

(** The [try] block of [login]. *)
Definition login_attempt (env : Env) (email name : jsstring) : M unit :=
  sleep 800 ;;;
  let user := make_user env email name in
  setItem (storage_fits env) auth_user (JSON_stringify user) ;;;
  dispatch (LOGIN_SUCCESS user).

(** [login(email, name)], run to completion. *)
Definition login (env : Env) (email name : jsstring) : M unit :=
  dispatch LOGIN_START ;;;
  try login_attempt env email name
  catch (fun _ => dispatch (LOGIN_FAILURE failure_message)).

(** [logout()]. *)
Definition logout : M unit :=
  removeItem auth_user ;;;
  dispatch LOGOUT.

(** The world after a computation. *)
Definition exec {A : Type} (m : M A) (w : World) : World := snd (m w).

(** The provider as it is mounted over a given [localStorage]. *)
Definition mount (store : gmap jsstring jsstring) : World :=
  {| state := initialState; localStorage := store; dispatched := [] |}.

(** Process start: mount, then the mount effect. *)
Definition start (store : gmap jsstring jsstring) : World :=
  exec bootstrap (mount store).

(** The operations a client of the provider can cause. *)
Inductive Op : Type :=
| Bootstrap
| Login (env : Env) (email name : jsstring)
| Logout.

Definition perform (op : Op) : M unit :=
  match op with
  | Bootstrap => bootstrap
  | Login env email name => login env email name
  | Logout => logout
  end.

(** Operations run one after the other, each to completion. *)
Definition run (ops : list Op) (w : World) : World :=
  fold_left (fun w op => exec (perform op) w) ops w.

(** The calls open to the pages once the provider is mounted. *)
Definition is_call (op : Op) : bool :=
  match op with
  | Bootstrap => false
  | Login _ _ _ | Logout => true
  end.

(** A login whose write to the store is refused. *)
Definition failed_login (op : Op) : bool :=
  match op with
  | Login env _ _ => negb (storage_fits env)
  | Bootstrap | Logout => false
  end.

(** A store whose session record, if any and if it parses, does not
    parse to [null]. *)
Definition store_sound (store : gmap jsstring jsstring) : bool :=
  match store !! auth_user with
  | Some text =>
      match JSON_parse text with
      | Some JNull => false
      | _ => true
      end
  | None => true
  end.

(** The states passed through when [actions] are dispatched from [s],
    as transitions (state before, action, state after). *)
Fixpoint transitions (s : AuthState) (actions : list AuthAction)
  : list (AuthState * AuthAction * AuthState) :=
  match actions with
  | [] => []
  | a :: rest => (s, a, authReducer s a) :: transitions (authReducer s a) rest
  end.

(** How many of the transitions take [isLoading] from [true] to [false]. *)
Definition resolutions (trs : list (AuthState * AuthAction * AuthState)) : nat :=
  length (filter (fun tr => isLoading (fst (fst tr)) && negb (isLoading (snd tr))) trs).

(** What the discipline of [error] asks of one transition: [error] goes
    from null to non-null only by a LOGIN_FAILURE carrying the fixed
    message, and it is null after LOGIN_START and after LOGIN_SUCCESS. *)
Definition error_discipline (tr : AuthState * AuthAction * AuthState) : Prop :=
  (error (fst (fst tr)) = None -> error (snd tr) <> None ->
   snd (fst tr) = LOGIN_FAILURE failure_message)
  /\ (snd (fst tr) = LOGIN_START -> error (snd tr) = None)
  /\ (forall identity, snd (fst tr) = LOGIN_SUCCESS identity -> error (snd tr) = None).

(** What every operation preserves: the store stays sound and an
    authenticated state has a user. *)
Definition session_ok (w : World) : Prop :=
  store_sound (localStorage w) = true
  /\ (isAuthenticated (state w) = true -> user (state w) <> JNull).

(** The log and the state agree, and every transition so far obeys the
    discipline. *)
Definition log_ok (w : World) : Prop :=
  state w = fold_left authReducer (dispatched w) initialState
  /\ Forall error_discipline (transitions initialState (dispatched w)).

(* ===================================================================== *)
(** ** Route guards *)
(* ===================================================================== *)

(** What a guard returns: the waiting indicator of [ProtectedRoute], the
    children, a [<Navigate to=... replace />] or [null]. *)
Inductive Element (C : Type) : Type :=
| Spinner
| Fragment (children : C)
| Navigate (to : string) (replace : bool)
| Null.
Arguments Spinner {C}.
Arguments Fragment {C} children.
Arguments Navigate {C} to%_string replace.
Arguments Null {C}.

(** [useAuth]: the context value, or the error thrown outside a
    provider. Of the context only the state is read by the guards. *)
Definition useAuth (context : option AuthState) : string + AuthState :=
  match context with
  | None => inl "useAuth must be used within AuthProvider"%string
  | Some c => inr c
  end.

Definition ProtectedRoute {C : Type} (context : option AuthState) (children : C)
  : string + Element C :=
  match useAuth context with
  | inl e => inl e
  | inr c =>
      if isLoading c then inr Spinner
      else inr (if isAuthenticated c then Fragment children else Navigate "/login" true)
  end.

Definition PublicRoute {C : Type} (context : option AuthState) (children : C)
  : string + Element C :=
  match useAuth context with
  | inl e => inl e
  | inr c =>
      if isLoading c then inr Null
      else inr (if negb (isAuthenticated c) then Fragment children else Navigate "/dashboard" true)
  end.

(* ===================================================================== *)
(** ** The routes of [App] *)
(* ===================================================================== *)

(** The three page components the routes mount. *)
Inductive Page : Type := LoginPage | RegisterPage | Dashboard.

(** The four [<Route>] elements of [App], by their [path]. *)
Inductive RouteId : Type := LoginRoute | RegisterRoute | DashboardRoute | RootRoute.

Definition route_path (r : RouteId) : string :=
  match r with
  | LoginRoute => "/login"
  | RegisterRoute => "/register"
  | DashboardRoute => "/dashboard"
  | RootRoute => "/"
  end.

(** The [element] of each route, rendered inside the provider. The root
    route is [<Navigate to="/dashboard" />], without [replace]. *)
Definition route_element (r : RouteId) (context : option AuthState)
  : string + Element Page :=
  match r with
  | LoginRoute => PublicRoute context LoginPage
  | RegisterRoute => PublicRoute context RegisterPage
  | DashboardRoute => ProtectedRoute context Dashboard
  | RootRoute => inr (Navigate "/dashboard" false)
  end.

(** [App] at a location: [AuthProvider] supplies the context, [Routes]
    renders the element of the route the location matches, and nothing
    when none does. Which route a location matches is the router's
    business and is given by [matchRoute]. *)
Definition App (matchRoute : string -> option RouteId) (s : AuthState) (pathname : string)
  : string + Element Page :=
  match matchRoute pathname with
  | Some r => route_element r (Some s)
  | None => inr Null
  end.

(** A location matched against the declared paths letter for letter. *)
Definition match_exact (pathname : string) : option RouteId :=
  find (fun r => String.eqb (route_path r) pathname)
       [LoginRoute; RegisterRoute; DashboardRoute; RootRoute].

(** Where the application comes to rest: a rendered [<Navigate>] moves
    the location to its target and [App] renders again. *)
Inductive Settled : Type :=
| Shows (pathname : string) (e : Element Page)
| Throws (message : string)
| StillRedirecting.

Fixpoint settle (matchRoute : string -> option RouteId) (fuel : nat)
    (s : AuthState) (pathname : string) : Settled :=
  match fuel with
  | O => StillRedirecting
  | S fuel' =>
      match App matchRoute s pathname with
      | inl message => Throws message
      | inr (Navigate to _) => settle matchRoute fuel' s to
      | inr e => Shows pathname e
      end
  end.

(* ===================================================================== *)
(** ** The submit handlers of the pages *)
(* ===================================================================== *)

Definition AT_SIGN : N := 64.

(** [s.split(sep)] for a separator of one code unit: the pieces between
    the occurrences of [sep], at least one. *)
Fixpoint split (sep : N) (s : jsstring) : list jsstring :=
  match s with
  | [] => [[]]
  | c :: rest =>
      if (c =? sep)%N then [] :: split sep rest
      else
        match split sep rest with
        | piece :: pieces => (c :: piece) :: pieces
        | [] => [[c]]
        end
  end.

(** [pieces[0]]; [split] never returns an empty array. *)
Definition first_piece (pieces : list jsstring) : jsstring :=
  match pieces with
  | piece :: _ => piece
  | [] => []
  end.

(** [handleSubmit] of [LoginPage], run to completion, on the values of
    the two fields: the target of the [navigate] call it makes, if any.
    ([e.preventDefault()] has no effect on the state modelled.) *)
Definition LoginPage_handleSubmit (env : Env) (email password : jsstring)
  : M (option string) :=
  if truthy (Some email) && truthy (Some password) then
    login env email (first_piece (split AT_SIGN email)) ;;;
    ret (Some "/dashboard"%string)
  else ret None.

(** [handleSubmit] of [RegisterPage]: it reads the email and name
    fields only, and tests neither. *)
Definition RegisterPage_handleSubmit (env : Env) (email name : jsstring)
  : M (option string) :=
  login env email name ;;;
  ret (Some "/dashboard"%string).

(* ===================================================================== *)
(** ** What the store holds against what the state says *)
(* ===================================================================== *)

(** The state and the store agree: an authenticated state has its user
    in the store, as a text that parses back to it; a state that is not
    authenticated has no user and the store no record that bootstrap
    would read. *)
Definition persisted (w : World) : Prop :=
  if isAuthenticated (state w) then
    truthy (localStorage w !! auth_user) = true
    /\ JSON_parse (to_string (localStorage w !! auth_user)) = Some (user (state w))
  else
    user (state w) = JNull
    /\ truthy (localStorage w !! auth_user) = false.

Definition is_login (op : Op) : bool :=
  match op with
  | Login _ _ _ => true
  | Bootstrap | Logout => false
  end.

(** While [isLoading] is still set, the store has no record that
    bootstrap would read. *)
Definition loading_means_no_record (w : World) : Prop :=
  isLoading (state w) = true -> truthy (localStorage w !! auth_user) = false.

(* ===================================================================== *)
(** ** The components of [src/components/UI.tsx] *)
(* ===================================================================== *)

Module UI.

(** The value of an attribute in a props object: [undefined], a boolean,
    a string, or anything else (a handler, a node), which is truthy. *)
Inductive PropValue : Type :=
| VUndefined
| VBool (b : bool)
| VString (s : string)
| VOther (id : nat).

Definition prop_truthy (v : PropValue) : bool :=
  match v with
  | VUndefined => false
  | VBool b => b
  | VString s => negb (String.eqb s "")
  | VOther _ => true
  end.

(** [a || b]. *)
Definition js_or (a b : PropValue) : PropValue :=
  if prop_truthy a then a else b.

(** [props.k], [undefined] when the key is absent. *)
Definition prop (props : gmap string PropValue) (k : string) : PropValue :=
  default VUndefined (props !! k).

(** An optional boolean parameter as a value. *)
Definition of_flag (flag : option bool) : PropValue :=
  match flag with
  | Some b => VBool b
  | None => VUndefined
  end.

Inductive Variant : Type := primary | secondary | outline | ghost | danger | indigo.
Inductive Size : Type := sm | md | lg | icon.

(** The table [variants] of [Button]. *)
Definition variants (v : Variant) : string :=
  match v with
  | primary => "bg-slate-900 text-white hover:bg-slate-800 shadow-sm"
  | secondary => "bg-slate-100 text-slate-900 hover:bg-slate-200"
  | indigo => "bg-indigo-600 text-white hover:bg-indigo-700 shadow-sm"
  | outline => "border border-slate-200 bg-white hover:bg-slate-100 text-slate-900"
  | ghost => "hover:bg-slate-100 text-slate-900"
  | danger => "bg-red-600 text-white hover:bg-red-700 shadow-sm"
  end.

(** The table [sizes] of [Button]. *)
Definition sizes (s : Size) : string :=
  match s with
  | sm => "h-9 px-3 text-xs"
  | md => "h-10 px-4 py-2"
  | lg => "h-11 px-8 text-base"
  | icon => "h-10 w-10"
  end.

Definition button_base : string :=
  "inline-flex items-center justify-center rounded-md font-medium transition-all focus-visible:outline-none focus-visible:ring-2 focus-visible:ring-slate-400 disabled:pointer-events-none disabled:opacity-50 active:scale-95".

(** The [<button>] that [Button] returns: its props object, whether the
    [Loader2] icon precedes the children, and the children. *)
Record ButtonElement (C : Type) : Type := mkButtonElement {
  button_props : gmap string PropValue;
  button_spinner : bool;
  button_children : C
}.
Arguments mkButtonElement {C}.
Arguments button_props {C}.
Arguments button_spinner {C}.
Arguments button_children {C}.

(** The names [Button] destructures out of its props; [...props] is
    what is left. *)
Definition button_own : list string :=
  ["children"; "variant"; "size"; "isLoading"; "className"]%string.

(** [Button]. Its five own parameters are given apart, with [None] for
    an omitted one ([variant], [size] and [className] then take their
    defaults); [others] holds the rest of the props. In the JSX the
    spread [{...props}] comes after [className] and [disabled], so its
    entries take precedence over them. [cn] is the class-name joiner of
    [../utils/cn.ts], which is not among the sources. *)
Definition Button {C : Type} (cn : list string -> string) (children : C)
    (variant : option Variant) (size : option Size) (isLoading : option bool)
    (className : option string) (others : gmap string PropValue) : ButtonElement C :=
  let props := foldr delete others button_own in
  {| button_props :=
       props
       ∪ <["disabled" := js_or (of_flag isLoading) (prop props "disabled")]>
           {["className" :=
               VString (cn [button_base; variants (default primary variant);
                            sizes (default md size); default ""%string className])]};
     button_spinner := prop_truthy (of_flag isLoading);
     button_children := children |}.

(** Whether the rendered button is disabled: the DOM attribute is set
    when the prop is truthy. *)
Definition button_disabled {C : Type} (e : ButtonElement C) : bool :=
  prop_truthy (prop (button_props e) "disabled").

Inductive Icon : Type := Eye | EyeOff.

(** What [Input] returns: the class of the container, the label if one
    is rendered, the props object of the [<input>], the icon of the
    toggle button if one is rendered, and the error text if one is
    rendered. *)
Record InputElement : Type := mkInputElement {
  container_className : string;
  input_label : option string;
  input_props : gmap string PropValue;
  input_toggle : option Icon;
  input_error : option string
}.

Definition input_own : list string :=
  ["label"; "error"; "containerClassName"; "className"; "type"]%string.

Definition input_base : string :=
  "flex h-10 w-full rounded-md border border-slate-200 bg-white px-3 py-2 text-sm ring-offset-white file:border-0 file:bg-transparent file:text-sm file:font-medium placeholder:text-slate-500 focus-visible:outline-none focus-visible:ring-2 focus-visible:ring-slate-950 focus-visible:ring-offset-2 disabled:cursor-not-allowed disabled:opacity-50 transition-all".

(** A string parameter as rendered by [{s && ...}]: only when present
    and not empty. *)
Definition shown (s : option string) : option string :=
  match s with
  | Some text => if String.eqb text "" then None else Some text
  | None => None
  end.

Definition of_text (s : option string) : PropValue :=
  match s with
  | Some text => VString text
  | None => VUndefined
  end.

(** [Input], at a value [showPassword] of its state. *)
Definition Input (cn : list string -> string)
    (label error containerClassName className type : option string)
    (others : gmap string PropValue) (showPassword : bool) : InputElement :=
  let props := foldr delete others input_own in
  let isPassword := bool_decide (type = Some "password"%string) in
  let inputType :=
    if isPassword then VString (if showPassword then "text" else "password")
    else of_text type in
  {| container_className := cn ["w-full space-y-1.5"%string; default ""%string containerClassName];
     input_label := shown label;
     input_props :=
       props
       ∪ <["className" :=
             VString (cn [input_base;
                          match shown error with
                          | Some _ => "border-red-500 ring-red-500"%string
                          | None => "focus-visible:ring-slate-900"%string
                          end;
                          if isPassword then "pr-10"%string else ""%string;
                          default ""%string className])]>
           {["type" := inputType]};
     input_toggle :=
       if isPassword then Some (if showPassword then EyeOff else Eye) else None;
     input_error := shown error |}.

(** The [onClick] of the toggle: [setShowPassword(!showPassword)]. *)
Definition toggle_click (showPassword : bool) : bool := negb showPassword.

(** The value of [showPassword] after some clicks on the toggle, each
    handled on a fresh render, from the initial [useState(false)]. *)
Fixpoint after_clicks (n : nat) : bool :=
  match n with
  | O => false
  | S n' => toggle_click (after_clicks n')
  end.

End UI.

(* ===================================================================== *)
(** ** The insight service (the second module of [src/App.tsx]) *)
(* ===================================================================== *)

Module Insight.

(** White space and line terminators, the code units [trim] strips. *)
Definition is_space (c : N) : bool :=
  ((9 <=? c) && (c <=? 13) || (c =? 32) || (c =? 160) || (c =? 5760)
   || (8192 <=? c) && (c <=? 8202) || (c =? 8232) || (c =? 8233)
   || (c =? 8239) || (c =? 8287) || (c =? 12288) || (c =? 65279))%N.

Fixpoint trim_start (s : jsstring) : jsstring :=
  match s with
  | c :: rest => if is_space c then trim_start rest else s
  | [] => []
  end.

Fixpoint trim_end (s : jsstring) : jsstring :=
  match s with
  | c :: rest =>
      match trim_end rest with
      | [] => if is_space c then [] else [c]
      | kept => c :: kept
      end
  | [] => []
  end.


(** [s.trim()]. *)
Definition trim (s : jsstring) : jsstring := trim_end (trim_start s).

Inductive Thrown : Type :=
| NoAIInitialized      (* the Error thrown when getAI returns null *)
| RequestFailed.       (* whatever the client throws or rejects with *)

Inductive ConsoleEntry : Type :=
| Warn (message : string)
| Error (message : string) (thrown : Thrown).

(** How [ai.models.generateContent] ends: it throws or rejects, or it
    resolves to a response whose [text] is a string or [undefined]. *)
Inductive Generated : Type :=
| Rejects
| Resolves (text : option jsstring).

(** What the service takes from its surroundings: [process.env.API_KEY],
    the remote model as a function of the prompt, and the index
    [Math.floor(Math.random() * fallbacks.length)]. *)
Record Env : Type := mkEnv {
  API_KEY : option jsstring;
  generateContent : jsstring -> Generated;
  fallback_index : nat
}.

(** What the service writes: the console and the prompts sent out. *)
Record World : Type := mkWorld {
  console : list ConsoleEntry;
  requests : list jsstring
}.

(** [getAI]: the client (here, its key), or [null] with a warning. *)
Definition getAI (env : Env) (w : World) : option jsstring * World :=
  if truthy (API_KEY env) then (API_KEY env, w)
  else
    (None,
     {| console := console w
          ++ [Warn "Gemini API key is missing. AI insights will be mocked."];
        requests := requests w |}).

Definition prompt (userName : jsstring) : jsstring :=
  lit "User: " ++ userName
  ++ lit ". Context: Security Dashboard. Task: Provide a hyper-professional, reassuring security summary and one actionable safety tip. Format: One concise paragraph. Tone: Elite, Precise, Modern. Length: Max 50 words.".

Definition default_insight : jsstring :=
  lit "Your digital perimeter is robust. We recommend rotating your root access keys every 90 days to maintain peak protocol integrity.".

Definition fallbacks : list jsstring :=
  [ lit "Welcome back. All encryption protocols are active. Remember to verify any unusual login attempts via your mobile authenticator app.";
    lit "Protocols nominal. Security Tip: Enable hardware-based security keys for your most critical administrative accounts.";
    lit "Active protection enabled. Tip: Review your connected third-party applications weekly to ensure minimal data exposure." ].

(** [response.text?.trim() || default_insight]. *)
Definition text_or_default (text : option jsstring) : jsstring :=
  match text with
  | Some t => if truthy (Some (trim t)) then trim t else default_insight
  | None => default_insight
  end.

(** The [try] block of [getSecurityInsight]. [requests] records the
    prompt of each call of [generateContent]; anything the client
    throws, at construction or at the call, ends the block the same
    way and is covered by [Rejects]. *)
Definition attempt (env : Env) (userName : jsstring) (w : World)
  : (Thrown + jsstring) * World :=
  match getAI env w with
  | (None, w1) => (inl NoAIInitialized, w1)
  | (Some _, w1) =>
      let w2 := {| console := console w1;
                   requests := requests w1 ++ [prompt userName] |} in
      match generateContent env (prompt userName) with
      | Rejects => (inl RequestFailed, w2)
      | Resolves text => (inr (text_or_default text), w2)
      end
  end.

(** [getSecurityInsight(userName)], run to completion: the string the
    promise resolves to, [None] standing for [undefined] (an index
    outside [fallbacks]). *)
Definition getSecurityInsight (env : Env) (userName : jsstring) (w : World)
  : option jsstring * World :=
  match attempt env userName w with
  | (inr text, w') => (Some text, w')
  | (inl thrown, w') =>
      (fallbacks !! fallback_index env,
       {| console := console w' ++ [Error "Gemini Service Error:" thrown];
          requests := requests w' |})
  end.

End Insight.

(* ===================================================================== *)
(** ** The model on concrete inputs *)
(* ===================================================================== *)

Example parse_literals :
  JSON_parse (lit "null") = Some JNull
  /\ JSON_parse (lit " true ") = Some (JBool true)
  /\ JSON_parse (lit "-2.5e+3") = Some (JNumber (lit "-2.5e+3"))
  /\ JSON_parse (lit "{}") = Some (JObject [])
  /\ JSON_parse (lit "[1, [], false]")
     = Some (JArray [JNumber (lit "1"); JArray []; JBool false]).
Proof. vm_compute. repeat split. Qed.

(** A two-character escape and a four-digit escape inside a string. *)
Example parse_escapes :
  JSON_parse (QUOTE :: lit "x\n\u0041A" ++ [QUOTE])
  = Some (JString (lit "x" ++ [10; 65; 65]%N)).
Proof. vm_compute. reflexivity. Qed.

Example parse_nested :
  JSON_parse (lit "{ " ++ quote (lit "a") ++ lit " : [1, 2] , " ++ quote (lit "b") ++ lit ":{} } ")
  = Some (JObject [(lit "a", JArray [JNumber (lit "1"); JNumber (lit "2")]);
                   (lit "b", JObject [])]).
Proof. vm_compute. reflexivity. Qed.

Example parse_rejects :
  JSON_parse (lit "") = None
  /\ JSON_parse (lit "{") = None
  /\ JSON_parse (lit "01") = None
  /\ JSON_parse (lit "1.") = None
  /\ JSON_parse (lit "[1,]") = None
  /\ JSON_parse (lit "nul") = None
  /\ JSON_parse (lit "{}x") = None
  /\ JSON_parse (lit "{a:1}") = None
  /\ JSON_parse (QUOTE :: [9; QUOTE]%N) = None.
Proof. vm_compute. repeat split. Qed.

(** A quote, a backslash, a control character, a surrogate pair and a
    lone surrogate, as [JSON.stringify] prints them. *)
Example stringify_escapes :
  JSON_stringify (JString [97; 34; 92; 1; 10; 55357; 56832; 55357]%N)
  = QUOTE :: lit "a\" ++ [QUOTE] ++ lit "\\\u0001\n" ++ [55357; 56832]%N
      ++ lit "\ud83d" ++ [QUOTE].
Proof. vm_compute. reflexivity. Qed.

(** The record [login("a@b.com", "a")] writes. *)
Example stringify_user :
  JSON_stringify
    (make_user {| random_base36 := lit "0.4fzyo82mvyr"; storage_fits := true |}
               (lit "a@b.com") (lit "a"))
  = lit "{" ++ quote (lit "id") ++ lit ":" ++ quote (lit "4fzyo82mv")
      ++ lit "," ++ quote (lit "email") ++ lit ":" ++ quote (lit "a@b.com")
      ++ lit "," ++ quote (lit "name") ++ lit ":" ++ quote (lit "a")
      ++ lit "," ++ quote (lit "avatar") ++ lit ":"
      ++ quote (lit "https://api.dicebear.com/7.x/avataaars/svg?seed=a") ++ lit "}".
Proof. vm_compute. reflexivity. Qed.

(** The scenario of the specification: [login("a@b.com", "a")] on a
    fresh profile. *)
Example login_scenario :
  let env := {| random_base36 := lit "0.4fzyo82mvyr"; storage_fits := true |} in
  let w := run [Login env (lit "a@b.com") (lit "a")] (start ∅) in
  isAuthenticated (state w) = true
  /\ get (lit "email") (user (state w)) = Some (JString (lit "a@b.com"))
  /\ error (state w) = None
  /\ isLoading (state w) = false
  /\ dispatched w = [LOGOUT; LOGIN_START; LOGIN_SUCCESS (make_user env (lit "a@b.com") (lit "a"))]
  /\ (JSON_parse <$> localStorage w !! auth_user)
     = Some (Some (make_user env (lit "a@b.com") (lit "a"))).
Proof. vm_compute. repeat split. Qed.

(** Two failed logins in a row: each clears [error] at its start and
    sets it at its end, and neither leaves [isLoading] set. *)
Example two_failed_logins :
  let env := {| random_base36 := lit "0.4fzyo82mvyr"; storage_fits := false |} in
  let w := run [Login env (lit "a@b.com") (lit "a"); Login env (lit "a@b.com") (lit "a")]
               (start ∅) in
  List.map (fun tr => error (snd tr)) (transitions initialState (dispatched w))
  = [None; None; Some failure_message; None; Some failure_message]
  /\ isLoading (state w) = false
  /\ localStorage w = ∅.
Proof. vm_compute. repeat split. Qed.

(* ===================================================================== *)
(** ** Quoting and parsing strings *)
(* ===================================================================== *)

Section QuoteParse.

Local Open Scope N_scope.

Lemma hex_val_hex_digit (n : N) : n < 16 -> hex_val (hex_digit n) = Some n.
Proof.
  intros Hn. destruct n as [| p]; [reflexivity |].
  do 4 (destruct p as [p | p |]; try reflexivity); lia.
Qed.

Lemma hex4_digits (c : N) :
  c < 65536 ->
  hex4 (hex_digit ((c / 4096) mod 16)) (hex_digit ((c / 256) mod 16))
       (hex_digit ((c / 16) mod 16)) (hex_digit (c mod 16)) = Some c.
Proof.
  intros Hc. unfold hex4.
  rewrite !hex_val_hex_digit by (apply N.mod_upper_bound; discriminate).
  f_equal.
  pose proof (N.div_mod c 16 ltac:(discriminate)) as H0.
  pose proof (N.div_mod (c / 16) 16 ltac:(discriminate)) as H1.
  pose proof (N.div_mod (c / 256) 16 ltac:(discriminate)) as H2.
  pose proof (N.mod_upper_bound c 16 ltac:(discriminate)) as B0.
  assert (E1 : c / 256 = c / 16 / 16) by (rewrite N.Div0.div_div; reflexivity).
  assert (E2 : c / 4096 = c / 256 / 16) by (rewrite N.Div0.div_div; reflexivity).
  assert (S3 : c / 4096 < 16) by (apply N.Div0.div_lt_upper_bound; lia).
  rewrite (N.mod_small (c / 4096) 16) by exact S3.
  rewrite E2 in *. rewrite E1 in *. lia.
Qed.

(** The parser reads back each of the three forms the printer emits. *)

Lemma parse_string_raw (c : N) (r : jsstring) :
  c <> 34 -> c <> 92 -> 32 <= c ->
  parse_string (c :: r) = cons_unit c (parse_string r).
Proof.
  intros Hq Hb Hc. cbn [parse_string]. unfold QUOTE, BACKSLASH.
  destruct (N.eqb_spec c 34); [contradiction |].
  destruct (N.eqb_spec c 92); [contradiction |].
  destruct (N.ltb_spec c 32); [lia | reflexivity].
Qed.

Lemma short_escape_inv (c e : N) :
  short_escape c = Some e -> (e =? 117) = false /\ simple_escape e = Some c.
Proof.
  unfold short_escape.
  repeat match goal with
         | |- context [N.eqb c ?k] => destruct (N.eqb_spec c k); [subst c; intros [= <-]; split; reflexivity |]
         end.
  discriminate.
Qed.

Lemma short_escape_None (c : N) :
  short_escape c = None -> c <> 34 /\ c <> 92.
Proof.
  unfold short_escape.
  repeat match goal with
         | |- context [N.eqb c ?k] => destruct (N.eqb_spec c k); [discriminate |]
         end.
  intros _. split; assumption.
Qed.

Lemma parse_string_short (c e : N) (r : jsstring) :
  short_escape c = Some e ->
  parse_string (BACKSLASH :: e :: r) = cons_unit c (parse_string r).
Proof.
  intros H. apply short_escape_inv in H as [Hu Hs].
  cbn [parse_string]. change (BACKSLASH =? QUOTE) with false.
  change (BACKSLASH =? BACKSLASH) with true. cbn match.
  rewrite Hu, Hs. reflexivity.
Qed.

Lemma parse_string_unicode (c : N) (r : jsstring) :
  c < 65536 ->
  parse_string (unicode_escape c ++ r) = cons_unit c (parse_string r).
Proof.
  intros Hc. unfold unicode_escape. cbn [app parse_string].
  change (BACKSLASH =? QUOTE) with false.
  change (BACKSLASH =? BACKSLASH) with true.
  change (117 =? 117) with true. cbn match.
  rewrite hex4_digits by exact Hc. reflexivity.
Qed.

(** [JSON.parse] undoes QuoteJSONString: the text between the quotes,
    followed by the closing quote, parses to the string quoted. *)
Lemma parse_string_quote_units (s rest : jsstring) :
  parse_string (quote_units s ++ QUOTE :: rest) = Some (s, rest).
Proof.
  remember (length s) as n eqn:Hn.
  assert (Hle : (length s <= n)%nat) by lia. clear Hn.
  revert s Hle. induction n as [| n IH]; intros s Hle.
  - destruct s; [| simpl in Hle; lia]. reflexivity.
  - destruct s as [| c s]; [reflexivity |].
    simpl in Hle. cbn [quote_units].
    destruct (short_escape c) as [e |] eqn:He.
    + cbn [app]. rewrite (parse_string_short c e) by exact He.
      rewrite IH by lia. reflexivity.
    + apply short_escape_None in He as [Hq Hb].
      destruct (N.ltb_spec c 32) as [Hlt | Hge].
      { rewrite <- app_assoc, parse_string_unicode by lia.
        rewrite IH by lia. reflexivity. }
      destruct (is_high c) eqn:Hhigh.
      { unfold is_high in Hhigh. apply andb_true_iff in Hhigh as [H1 H2].
        apply N.leb_le in H1, H2.
        destruct s as [| d s].
        - rewrite parse_string_unicode by lia. reflexivity.
        - destruct (is_low d) eqn:Hlow.
          + unfold is_low in Hlow. apply andb_true_iff in Hlow as [L1 L2].
            apply N.leb_le in L1, L2. cbn [app].
            rewrite parse_string_raw by lia.
            rewrite parse_string_raw by lia.
            simpl in Hle. rewrite IH by lia. reflexivity.
          + rewrite <- app_assoc, parse_string_unicode by lia.
            rewrite IH by (simpl in *; lia). reflexivity. }
      destruct (is_low c) eqn:Hlow.
      { unfold is_low in Hlow. apply andb_true_iff in Hlow as [L1 L2].
        apply N.leb_le in L1, L2.
        rewrite <- app_assoc, parse_string_unicode by lia.
        rewrite IH by lia. reflexivity. }
      cbn [app]. rewrite parse_string_raw by lia.
      rewrite IH by lia. reflexivity.
Qed.

End QuoteParse.

(* ===================================================================== *)
(** ** The fuel of the parser is enough *)
(* ===================================================================== *)

Section Fuel.

Local Open Scope nat_scope.

Lemma skip_ws_length (inp : jsstring) : length (skip_ws inp) <= length inp.
Proof.
  induction inp as [| c inp IH]; [reflexivity |].
  cbn [skip_ws]. destruct (is_ws c); simpl in *; lia.
Qed.

Lemma skip_ws_cons_length (inp rest : jsstring) (c : N) :
  skip_ws inp = c :: rest -> length rest < length inp.
Proof.
  intros H. pose proof (skip_ws_length inp) as Hlen. rewrite H in Hlen.
  simpl in Hlen. lia.
Qed.

Lemma cons_unit_Some (c : N) (r : option (jsstring * jsstring)) (s rest : jsstring) :
  cons_unit c r = Some (s, rest) -> exists s', r = Some (s', rest).
Proof.
  destruct r as [[s' rest'] |]; [| discriminate].
  intros [= <- <-]. eauto.
Qed.

Lemma parse_string_length (inp : jsstring) :
  forall s rest, parse_string inp = Some (s, rest) -> length rest < length inp.
Proof.
  remember (length inp) as n eqn:Hn.
  assert (Hle : length inp <= n) by lia. clear Hn.
  revert inp Hle. induction n as [| n IH]; intros inp Hle s rest.
  - destruct inp; [discriminate | simpl in Hle; lia].
  - destruct inp as [| c inp]; [discriminate |]. simpl in Hle.
    cbn [parse_string].
    destruct (N.eqb c QUOTE); [intros [= <- <-]; simpl; lia |].
    destruct (N.eqb c BACKSLASH).
    + destruct inp as [| e inp]; [discriminate |]. simpl in Hle.
      destruct (N.eqb e 117).
      * destruct inp as [| h1 [| h2 [| h3 [| h4 inp]]]]; try discriminate.
        destruct (hex4 h1 h2 h3 h4); [| discriminate].
        intros H. apply cons_unit_Some in H as [s' H].
        apply IH in H; simpl in *; lia.
      * destruct (simple_escape e); [| discriminate].
        intros H. apply cons_unit_Some in H as [s' H].
        apply IH in H; simpl in *; lia.
    + destruct (N.ltb c 32); [discriminate |].
      intros H. apply cons_unit_Some in H as [s' H].
      apply IH in H; simpl in *; lia.
Qed.

Lemma digits_length (inp : jsstring) :
  length (snd (digits inp)) <= length inp.
Proof.
  induction inp as [| c inp IH]; [reflexivity |].
  cbn [digits]. destruct (is_digit c); [| reflexivity].
  destruct (digits inp) as [ds r]. simpl in *. lia.
Qed.

Lemma expect_length (word inp rest : jsstring) :
  expect word inp = Some rest -> length rest <= length inp.
Proof.
  revert inp. induction word as [| x word IH]; intros inp.
  - intros [= ->]. reflexivity.
  - destruct inp as [| c inp]; [discriminate |]. cbn [expect].
    destruct (N.eqb c x); [| discriminate].
    intros H. apply IH in H. simpl. lia.
Qed.

Lemma parse_number_length (inp lexeme rest : jsstring) :
  parse_number inp = Some (lexeme, rest) -> length rest < length inp.
Proof.
  unfold parse_number.
  set (signed := match inp with
                 | c :: r => if N.eqb c MINUS then ([c], r) else ([], inp)
                 | [] => ([], inp)
                 end).
  assert (Hsigned : length (snd signed) <= length inp).
  { subst signed. destruct inp as [| c r]; [reflexivity |].
    destruct (N.eqb c MINUS); simpl; lia. }
  destruct signed as [sign r0]. cbn [snd] in Hsigned.
  destruct r0 as [| d r1]; [discriminate |]. simpl in Hsigned.
  set (int_part := if N.eqb d ZERO then Some ([d], r1)
                   else if is_digit19 d
                        then let (ds, r) := digits r1 in Some (d :: ds, r)
                        else None).
  assert (Hint : forall int r2, int_part = Some (int, r2) -> length r2 <= length r1).
  { subst int_part. intros int r2.
    destruct (N.eqb d ZERO); [intros [= <- <-]; reflexivity |].
    destruct (is_digit19 d); [| discriminate].
    pose proof (digits_length r1) as Hd. destruct (digits r1) as [ds r].
    intros [= <- <-]. exact Hd. }
  destruct int_part as [[int r2] |]; [| discriminate].
  specialize (Hint int r2 eq_refl).
  set (frac_part := match r2 with
                    | p :: r =>
                        if N.eqb p DOT
                        then match digits r with
                             | ([], _) => None
                             | (ds, r') => Some (p :: ds, r')
                             end
                        else Some ([], r2)
                    | [] => Some ([], r2)
                    end).
  assert (Hfrac : forall frac r3, frac_part = Some (frac, r3) -> length r3 <= length r2).
  { subst frac_part. intros frac r3.
    destruct r2 as [| p r]; [intros [= <- <-]; reflexivity |].
    destruct (N.eqb p DOT); [| intros [= <- <-]; reflexivity].
    pose proof (digits_length r) as Hd. destruct (digits r) as [[| x ds] r'];
      [discriminate |].
    intros [= <- <-]. simpl in *. lia. }
  destruct frac_part as [[frac r3] |]; [| discriminate].
  specialize (Hfrac frac r3 eq_refl).
  set (exp_part := match r3 with
                   | e :: r =>
                       if (N.eqb e 101 || N.eqb e 69)%bool
                       then
                         let (sg, r') :=
                           match r with
                           | s :: r' =>
                               if (N.eqb s PLUS || N.eqb s MINUS)%bool
                               then ([s], r') else ([], r)
                           | [] => ([], r)
                           end in
                         match digits r' with
                         | ([], _) => None
                         | (ds, r'') => Some (e :: sg ++ ds, r'')
                         end
                       else Some ([], r3)
                   | [] => Some ([], r3)
                   end).
  assert (Hexp : forall ex r4, exp_part = Some (ex, r4) -> length r4 <= length r3).
  { subst exp_part. intros ex r4.
    destruct r3 as [| e r]; [intros [= <- <-]; reflexivity |].
    destruct (N.eqb e 101 || N.eqb e 69)%bool; [| intros [= <- <-]; reflexivity].
    set (sgn := match r with
                | s :: r' =>
                    if (N.eqb s PLUS || N.eqb s MINUS)%bool then ([s], r') else ([], r)
                | [] => ([], r)
                end).
    assert (Hsgn : length (snd sgn) <= length r).
    { subst sgn. destruct r as [| s r']; [reflexivity |].
      destruct (N.eqb s PLUS || N.eqb s MINUS)%bool; simpl; lia. }
    destruct sgn as [sg r']. cbn [snd] in Hsgn.
    pose proof (digits_length r') as Hd. destruct (digits r') as [[| x ds] r''];
      [discriminate |].
    intros [= <- <-]. simpl in *. lia. }
  destruct exp_part as [[ex r4] |]; [| discriminate].
  specialize (Hexp ex r4 eq_refl).
  intros [= <- <-]. lia.
Qed.

Lemma parse_value_S (fuel : nat) (inp : jsstring) :
  parse_value (S fuel) inp =
  match skip_ws inp with
  | [] => None
  | c :: rest =>
      if N.eqb c QUOTE then
        match parse_string rest with
        | Some (s, rest') => Some (JString s, rest')
        | None => None
        end
      else if N.eqb c LBRACKET then
        match skip_ws rest with
        | [] => None
        | d :: rest' =>
            if N.eqb d RBRACKET then Some (JArray [], rest')
            else
              match parse_elements fuel (d :: rest') with
              | Some (vs, r) => Some (JArray vs, r)
              | None => None
              end
        end
      else if N.eqb c LBRACE then
        match skip_ws rest with
        | [] => None
        | d :: rest' =>
            if N.eqb d RBRACE then Some (JObject [], rest')
            else
              match parse_members fuel (d :: rest') with
              | Some (ps, r) => Some (JObject ps, r)
              | None => None
              end
        end
      else if N.eqb c 110 then
        match expect (lit "ull") rest with
        | Some r => Some (JNull, r)
        | None => None
        end
      else if N.eqb c 116 then
        match expect (lit "rue") rest with
        | Some r => Some (JBool true, r)
        | None => None
        end
      else if N.eqb c 102 then
        match expect (lit "alse") rest with
        | Some r => Some (JBool false, r)
        | None => None
        end
      else
        match parse_number (c :: rest) with
        | Some (lexeme, r) => Some (JNumber lexeme, r)
        | None => None
        end
  end.
Proof. reflexivity. Qed.

Lemma parse_members_S (fuel : nat) (inp : jsstring) :
  parse_members (S fuel) inp =
  match skip_ws inp with
  | [] => None
  | q :: rest =>
      if N.eqb q QUOTE then
        match parse_string rest with
        | None => None
        | Some (k, rest1) =>
            match skip_ws rest1 with
            | [] => None
            | c :: rest2 =>
                if N.eqb c COLON then
                  match parse_value fuel rest2 with
                  | None => None
                  | Some (v, rest3) =>
                      match skip_ws rest3 with
                      | [] => None
                      | d :: rest4 =>
                          if N.eqb d COMMA then
                            match parse_members fuel rest4 with
                            | Some (ps, r) => Some ((k, v) :: ps, r)
                            | None => None
                            end
                          else if N.eqb d RBRACE then Some ([(k, v)], rest4)
                          else None
                      end
                  end
                else None
            end
        end
      else None
  end.
Proof. reflexivity. Qed.

Lemma parse_elements_S (fuel : nat) (inp : jsstring) :
  parse_elements (S fuel) inp =
  match parse_value fuel inp with
  | None => None
  | Some (v, rest) =>
      match skip_ws rest with
      | [] => None
      | c :: rest' =>
          if N.eqb c COMMA then
            match parse_elements fuel rest' with
            | Some (vs, r) => Some (v :: vs, r)
            | None => None
            end
          else if N.eqb c RBRACKET then Some ([v], rest')
          else None
      end
  end.
Proof. reflexivity. Qed.

(** Every parser consumes input. *)
Lemma parse_length (fuel : nat) :
  (forall inp v r, parse_value fuel inp = Some (v, r) -> length r < length inp)
  /\ (forall inp vs r, parse_elements fuel inp = Some (vs, r) -> length r < length inp)
  /\ (forall inp ps r, parse_members fuel inp = Some (ps, r) -> length r < length inp).
Proof.
  induction fuel as [| fuel (IHv & IHe & IHm)].
  - repeat split; intros; discriminate.
  - repeat split.
    + intros inp v r. rewrite parse_value_S.
      destruct (skip_ws inp) as [| c rest] eqn:Hws; [discriminate |].
      apply skip_ws_cons_length in Hws.
      destruct (N.eqb c QUOTE).
      { destruct (parse_string rest) as [[s rest'] |] eqn:Hs; [| discriminate].
        intros [= <- <-]. apply parse_string_length in Hs. lia. }
      destruct (N.eqb c LBRACKET).
      { destruct (skip_ws rest) as [| d rest'] eqn:Hws2; [discriminate |].
        apply skip_ws_cons_length in Hws2.
        destruct (N.eqb d RBRACKET); [intros [= <- <-]; lia |].
        destruct (parse_elements fuel (d :: rest')) as [[vs r0] |] eqn:He; [| discriminate].
        intros [= <- <-]. apply IHe in He. simpl in He. lia. }
      destruct (N.eqb c LBRACE).
      { destruct (skip_ws rest) as [| d rest'] eqn:Hws2; [discriminate |].
        apply skip_ws_cons_length in Hws2.
        destruct (N.eqb d RBRACE); [intros [= <- <-]; lia |].
        destruct (parse_members fuel (d :: rest')) as [[ps r0] |] eqn:He; [| discriminate].
        intros [= <- <-]. apply IHm in He. simpl in He. lia. }
      destruct (N.eqb c 110).
      { destruct (expect (lit "ull") rest) as [r0 |] eqn:He; [| discriminate].
        intros [= <- <-]. apply expect_length in He. lia. }
      destruct (N.eqb c 116).
      { destruct (expect (lit "rue") rest) as [r0 |] eqn:He; [| discriminate].
        intros [= <- <-]. apply expect_length in He. lia. }
      destruct (N.eqb c 102).
      { destruct (expect (lit "alse") rest) as [r0 |] eqn:He; [| discriminate].
        intros [= <- <-]. apply expect_length in He. lia. }
      destruct (parse_number (c :: rest)) as [[lexeme r0] |] eqn:Hn; [| discriminate].
      intros [= <- <-]. apply parse_number_length in Hn. simpl in Hn. lia.
    + intros inp vs r. rewrite parse_elements_S.
      destruct (parse_value fuel inp) as [[v rest] |] eqn:Hv; [| discriminate].
      apply IHv in Hv.
      destruct (skip_ws rest) as [| c rest'] eqn:Hws; [discriminate |].
      apply skip_ws_cons_length in Hws.
      destruct (N.eqb c COMMA).
      { destruct (parse_elements fuel rest') as [[vs0 r0] |] eqn:He; [| discriminate].
        intros [= <- <-]. apply IHe in He. lia. }
      destruct (N.eqb c RBRACKET); [| discriminate].
      intros [= <- <-]. lia.
    + intros inp ps r. rewrite parse_members_S.
      destruct (skip_ws inp) as [| q rest] eqn:Hws; [discriminate |].
      apply skip_ws_cons_length in Hws.
      destruct (N.eqb q QUOTE); [| discriminate].
      destruct (parse_string rest) as [[k rest1] |] eqn:Hs; [| discriminate].
      apply parse_string_length in Hs.
      destruct (skip_ws rest1) as [| c rest2] eqn:Hws1; [discriminate |].
      apply skip_ws_cons_length in Hws1.
      destruct (N.eqb c COLON); [| discriminate].
      destruct (parse_value fuel rest2) as [[v rest3] |] eqn:Hv; [| discriminate].
      apply IHv in Hv.
      destruct (skip_ws rest3) as [| d rest4] eqn:Hws3; [discriminate |].
      apply skip_ws_cons_length in Hws3.
      destruct (N.eqb d COMMA).
      { destruct (parse_members fuel rest4) as [[ps0 r0] |] eqn:He; [| discriminate].
        intros [= <- <-]. apply IHm in He. lia. }
      destruct (N.eqb d RBRACE); [| discriminate].
      intros [= <- <-]. lia.
Qed.

(** Above twice the length of the input, the amount of fuel does not
    matter: the parser never stops for lack of it. *)
Lemma parse_fuel (f1 : nat) :
  forall f2,
    (forall inp, 2 * length inp < f1 -> 2 * length inp < f2 ->
                 parse_value f1 inp = parse_value f2 inp)
    /\ (forall inp, 2 * length inp + 1 < f1 -> 2 * length inp + 1 < f2 ->
                    parse_elements f1 inp = parse_elements f2 inp)
    /\ (forall inp, 2 * length inp + 1 < f1 -> 2 * length inp + 1 < f2 ->
                    parse_members f1 inp = parse_members f2 inp).
Proof.
  induction f1 as [| f1 IH]; intros f2.
  - repeat split; intros; lia.
  - destruct f2 as [| f2]; [repeat split; intros; lia |].
    specialize (IH f2). destruct IH as (IHv & IHe & IHm).
    repeat split.
    + intros inp H1 H2. rewrite !parse_value_S.
      destruct (skip_ws inp) as [| c rest] eqn:Hws; [reflexivity |].
      apply skip_ws_cons_length in Hws.
      destruct (N.eqb c QUOTE); [reflexivity |].
      destruct (N.eqb c LBRACKET).
      { destruct (skip_ws rest) as [| d rest'] eqn:Hws2; [reflexivity |].
        apply skip_ws_cons_length in Hws2.
        destruct (N.eqb d RBRACKET); [reflexivity |].
        rewrite (IHe (d :: rest')) by (simpl; lia). reflexivity. }
      destruct (N.eqb c LBRACE); [| reflexivity].
      destruct (skip_ws rest) as [| d rest'] eqn:Hws2; [reflexivity |].
      apply skip_ws_cons_length in Hws2.
      destruct (N.eqb d RBRACE); [reflexivity |].
      rewrite (IHm (d :: rest')) by (simpl; lia). reflexivity.
    + intros inp H1 H2. rewrite !parse_elements_S.
      rewrite (IHv inp) by lia.
      destruct (parse_value f2 inp) as [[v rest] |] eqn:Hv; [| reflexivity].
      apply (proj1 (parse_length f2)) in Hv.
      destruct (skip_ws rest) as [| c rest'] eqn:Hws; [reflexivity |].
      apply skip_ws_cons_length in Hws.
      destruct (N.eqb c COMMA); [| reflexivity].
      rewrite (IHe rest') by lia. reflexivity.
    + intros inp H1 H2. rewrite !parse_members_S.
      destruct (skip_ws inp) as [| q rest] eqn:Hws; [reflexivity |].
      apply skip_ws_cons_length in Hws.
      destruct (N.eqb q QUOTE); [| reflexivity].
      destruct (parse_string rest) as [[k rest1] |] eqn:Hs; [| reflexivity].
      apply parse_string_length in Hs.
      destruct (skip_ws rest1) as [| c rest2] eqn:Hws1; [reflexivity |].
      apply skip_ws_cons_length in Hws1.
      destruct (N.eqb c COLON); [| reflexivity].
      rewrite (IHv rest2) by lia.
      destruct (parse_value f2 rest2) as [[v rest3] |] eqn:Hv; [| reflexivity].
      apply (proj1 (parse_length f2)) in Hv.
      destruct (skip_ws rest3) as [| d rest4] eqn:Hws3; [reflexivity |].
      apply skip_ws_cons_length in Hws3.
      destruct (N.eqb d COMMA); [| reflexivity].
      rewrite (IHm rest4) by lia. reflexivity.
Qed.

(** [JSON_parse] is the parse with any sufficient fuel: a [None] is a
    syntax error of the text, never an exhausted fuel. *)
Lemma JSON_parse_any_fuel (text : jsstring) (fuel : nat) :
  2 * length text < fuel ->
  JSON_parse text =
  match parse_value fuel text with
  | Some (v, rest) =>
      match skip_ws rest with
      | [] => Some v
      | _ :: _ => None
      end
  | None => None
  end.
Proof.
  intros Hfuel. unfold JSON_parse.
  rewrite (proj1 (parse_fuel (2 * length text + 2) fuel) text) by lia.
  reflexivity.
Qed.

End Fuel.

(* ===================================================================== *)
(** ** Objects with string-valued properties *)
(* ===================================================================== *)

Section FlatObjects.

Local Open Scope N_scope.

Lemma quote_app (s rest : jsstring) :
  quote s ++ rest = QUOTE :: quote_units s ++ QUOTE :: rest.
Proof. unfold quote. cbn [app]. rewrite <- app_assoc. reflexivity. Qed.

Lemma parse_value_quote (fuel : nat) (s rest : jsstring) :
  parse_value (S fuel) (quote s ++ rest) = Some (JString s, rest).
Proof.
  rewrite quote_app. cbn [parse_value skip_ws].
  change (is_ws QUOTE) with false. cbn match.
  change (QUOTE =? QUOTE) with true. cbn match.
  rewrite parse_string_quote_units. reflexivity.
Qed.

Lemma parse_members_last (fuel : nat) (k v rest : jsstring) :
  parse_members (S (S fuel)) (member_text (k, JString v) ++ RBRACE :: rest)
  = Some ([(k, JString v)], rest).
Proof.
  unfold member_text. cbn [fst snd JSON_stringify].
  rewrite <- app_assoc. cbn [app]. rewrite quote_app.
  lazymatch goal with
  | |- parse_members (S ?f) ?i = _ => rewrite (parse_members_S f i)
  end.
  cbn [skip_ws].
  change (is_ws QUOTE) with false. cbn match.
  change (QUOTE =? QUOTE) with true. cbn match.
  rewrite parse_string_quote_units. cbn [skip_ws].
  change (is_ws COLON) with false. cbn match.
  change (COLON =? COLON) with true. cbn match.
  rewrite parse_value_quote. cbn [skip_ws].
  change (is_ws RBRACE) with false. cbn match.
  change (RBRACE =? COMMA) with false. change (RBRACE =? RBRACE) with true.
  reflexivity.
Qed.

Lemma parse_members_more (fuel : nat) (k v more : jsstring) :
  parse_members (S (S fuel)) (member_text (k, JString v) ++ COMMA :: more)
  = match parse_members (S fuel) more with
    | Some (ps, r) => Some ((k, JString v) :: ps, r)
    | None => None
    end.
Proof.
  unfold member_text. cbn [fst snd JSON_stringify].
  rewrite <- app_assoc. cbn [app]. rewrite quote_app.
  lazymatch goal with
  | |- parse_members (S ?f) ?i = _ => rewrite (parse_members_S f i)
  end.
  cbn [skip_ws].
  change (is_ws QUOTE) with false. cbn match.
  change (QUOTE =? QUOTE) with true. cbn match.
  rewrite parse_string_quote_units. cbn [skip_ws].
  change (is_ws COLON) with false. cbn match.
  change (COLON =? COLON) with true. cbn match.
  rewrite parse_value_quote. cbn [skip_ws].
  change (is_ws COMMA) with false. cbn match.
  change (COMMA =? COMMA) with true. cbn match.
  reflexivity.
Qed.

Lemma parse_members_flat (props : list (jsstring * JSValue)) :
  forall (fuel : nat) (rest : jsstring),
    props <> [] ->
    Forall string_valued props ->
    (length props < fuel)%nat ->
    parse_members fuel (join (List.map member_text props) ++ RBRACE :: rest)
    = Some (props, rest).
Proof.
  induction props as [| [k v] props IH]; intros fuel rest Hne Hall Hfuel.
  - contradiction.
  - apply Forall_cons_1 in Hall as [[s Hs] Hall]. cbn [snd] in Hs. subst v.
    destruct fuel as [| [| fuel]]; [simpl in Hfuel; lia | simpl in Hfuel; lia |].
    destruct props as [| kv props].
    + cbn [List.map join]. apply parse_members_last.
    + change (join (List.map member_text ((k, JString s) :: kv :: props)))
        with (member_text (k, JString s) ++ COMMA :: join (List.map member_text (kv :: props))).
      rewrite <- app_assoc. cbn [app].
      rewrite parse_members_more.
      rewrite IH; [reflexivity | discriminate | exact Hall | simpl in *; lia].
Qed.

Lemma join_members_head (props : list (jsstring * JSValue)) :
  props <> [] ->
  exists r, join (List.map member_text props) = QUOTE :: r.
Proof.
  destruct props as [| [k v] [| kv props]]; intros Hne; [contradiction | |].
  - cbn [List.map join]. unfold member_text. rewrite quote_app. eauto.
  - cbn [List.map join]. unfold member_text at 1.
    rewrite <- app_assoc, quote_app. eauto.
Qed.

Lemma join_members_length (props : list (jsstring * JSValue)) :
  (length props <= length (join (List.map member_text props)))%nat.
Proof.
  induction props as [| [k v] props IH]; [simpl; lia |].
  destruct props as [| kv props].
  - cbn [List.map join]. unfold member_text, quote. simpl. lia.
  - change (join (List.map member_text ((k, v) :: kv :: props)))
      with (member_text (k, v) ++ COMMA :: join (List.map member_text (kv :: props))).
    rewrite length_app. simpl in *. lia.
Qed.

(** [JSON.parse(JSON.stringify(o)) = o] for an object of strings. *)
Lemma JSON_parse_stringify_flat (props : list (jsstring * JSValue)) :
  Forall string_valued props ->
  JSON_parse (JSON_stringify (JObject props)) = Some (JObject props).
Proof.
  intros Hall. unfold JSON_parse. cbn [JSON_stringify].
  change (List.map (fun kv => quote (fst kv) ++ COLON :: JSON_stringify (snd kv)) props)
    with (List.map member_text props).
  set (body := join (List.map member_text props)).
  replace (2 * length (LBRACE :: body ++ [RBRACE]) + 2)%nat
    with (S (2 * length (LBRACE :: body ++ [RBRACE]) + 1))%nat by lia.
  set (fuel := (2 * length (LBRACE :: body ++ [RBRACE]) + 1)%nat).
  cbn [parse_value skip_ws].
  change (is_ws LBRACE) with false. cbn match.
  change (LBRACE =? QUOTE) with false. change (LBRACE =? LBRACKET) with false.
  change (LBRACE =? LBRACE) with true. cbn match.
  destruct props as [| kv props].
  - subst body. cbn [List.map join app skip_ws].
    change (is_ws RBRACE) with false. cbn match.
    change (RBRACE =? RBRACE) with true. reflexivity.
  - destruct (join_members_head (kv :: props)) as [r Hr]; [discriminate |].
    fold body in Hr.
    assert (Hfuel : (length (kv :: props) < fuel)%nat).
    { pose proof (join_members_length (kv :: props)) as Hlen. fold body in Hlen.
      subst fuel. simpl length. rewrite length_app. simpl in *. lia. }
    pose proof (parse_members_flat (kv :: props) fuel [] ltac:(discriminate) Hall Hfuel)
      as Hparse.
    fold body in Hparse. clearbody fuel body. subst body.
    cbn [app skip_ws] in Hparse |- *.
    change (is_ws QUOTE) with false. cbn match.
    change (QUOTE =? RBRACE) with false. cbn match.
    rewrite Hparse. reflexivity.
Qed.

End FlatObjects.

(* ===================================================================== *)
(** ** The reducer *)
(* ===================================================================== *)

(** C4. The transition table of the reducer: from every state,
    LOGIN_START sets [isLoading] and clears [error] and keeps [user] and
    [isAuthenticated]; LOGIN_SUCCESS clears [isLoading], sets
    [isAuthenticated] and stores the identity; LOGIN_FAILURE clears
    [isLoading], stores the message and keeps [isAuthenticated] and
    [user]; LOGOUT clears [isAuthenticated] and [user] and keeps
    [isLoading] and [error]. *)
Theorem reducer_transition_table (s : AuthState) :
  (isLoading (authReducer s LOGIN_START) = true
   /\ error (authReducer s LOGIN_START) = None
   /\ user (authReducer s LOGIN_START) = user s
   /\ isAuthenticated (authReducer s LOGIN_START) = isAuthenticated s)
  /\ (forall identity : JSValue,
        isLoading (authReducer s (LOGIN_SUCCESS identity)) = false
        /\ isAuthenticated (authReducer s (LOGIN_SUCCESS identity)) = true
        /\ user (authReducer s (LOGIN_SUCCESS identity)) = identity)
  /\ (forall message : jsstring,
        isLoading (authReducer s (LOGIN_FAILURE message)) = false
        /\ error (authReducer s (LOGIN_FAILURE message)) = Some message
        /\ isAuthenticated (authReducer s (LOGIN_FAILURE message)) = isAuthenticated s
        /\ user (authReducer s (LOGIN_FAILURE message)) = user s)
  /\ (isAuthenticated (authReducer s LOGOUT) = false
      /\ user (authReducer s LOGOUT) = JNull
      /\ isLoading (authReducer s LOGOUT) = isLoading s
      /\ error (authReducer s LOGOUT) = error s).
Proof.
  destruct s as [u a l e].
  repeat split.
Qed.

(** LOGIN_SUCCESS does not touch [error]: it is LOGIN_START that clears
    it. *)
Lemma authReducer_success_error (s : AuthState) (identity : JSValue) :
  error (authReducer s (LOGIN_SUCCESS identity)) = error s.
Proof. reflexivity. Qed.

Lemma authReducer_logout_idem (s : AuthState) :
  authReducer (authReducer s LOGOUT) LOGOUT = authReducer s LOGOUT.
Proof. reflexivity. Qed.

(* ===================================================================== *)
(** ** The controller, operation by operation *)
(* ===================================================================== *)

Lemma truthy_cons (c : N) (text : jsstring) : truthy (Some (c :: text)) = true.
Proof. reflexivity. Qed.

Lemma truthy_inv (v : option jsstring) :
  truthy v = true -> exists text, v = Some text /\ text <> [] /\ to_string v = text.
Proof.
  destruct v as [[| c text] |]; try discriminate.
  intros _. exists (c :: text). repeat split. discriminate.
Qed.

Lemma truthy_Some (text : jsstring) : text <> [] -> truthy (Some text) = true.
Proof. destruct text; [contradiction | reflexivity]. Qed.

Section Operations.

Variable w : World.

Lemma exec_logout :
  exec logout w =
  {| state := authReducer (state w) LOGOUT;
     localStorage := delete auth_user (localStorage w);
     dispatched := dispatched w ++ [LOGOUT] |}.
Proof. reflexivity. Qed.

Lemma exec_login_fits (env : Env) (email name : jsstring) :
  storage_fits env = true ->
  exec (login env email name) w =
  {| state := authReducer (authReducer (state w) LOGIN_START)
                          (LOGIN_SUCCESS (make_user env email name));
     localStorage :=
       <[auth_user := JSON_stringify (make_user env email name)]> (localStorage w);
     dispatched :=
       dispatched w ++ [LOGIN_START; LOGIN_SUCCESS (make_user env email name)] |}.
Proof.
  intros Hfits.
  unfold exec, login, login_attempt, try_catch, bind, sleep, ret, setItem, dispatch.
  rewrite Hfits. cbn [fst snd state localStorage dispatched].
  rewrite <- app_assoc. reflexivity.
Qed.

Lemma exec_login_full (env : Env) (email name : jsstring) :
  storage_fits env = false ->
  exec (login env email name) w =
  {| state := authReducer (authReducer (state w) LOGIN_START)
                          (LOGIN_FAILURE failure_message);
     localStorage := localStorage w;
     dispatched := dispatched w ++ [LOGIN_START; LOGIN_FAILURE failure_message] |}.
Proof.
  intros Hfits.
  unfold exec, login, login_attempt, try_catch, bind, sleep, ret, setItem, dispatch.
  rewrite Hfits. cbn [fst snd state localStorage dispatched].
  rewrite <- app_assoc. reflexivity.
Qed.

(** The [try] block of [login] throws exactly when the write does. *)
Lemma login_attempt_throws (env : Env) (email name : jsstring) :
  (exists e, fst (login_attempt env email name w) = inl e) <-> storage_fits env = false.
Proof.
  unfold login_attempt, bind, sleep, ret, setItem, dispatch.
  destruct (storage_fits env); cbn; split.
  - intros [e He]. discriminate.
  - discriminate.
  - reflexivity.
  - intros _. eexists. reflexivity.
Qed.

(** The three ways through the mount effect: the [else] branch, the
    [try] block run to its end, and the [catch] block. *)

Lemma exec_bootstrap_falsy :
  truthy (localStorage w !! auth_user) = false ->
  exec bootstrap w =
  {| state := authReducer (state w) LOGOUT;
     localStorage := localStorage w;
     dispatched := dispatched w ++ [LOGOUT] |}.
Proof.
  intros Hfalsy. unfold exec, bootstrap, bind, getItem. rewrite Hfalsy. reflexivity.
Qed.

Lemma exec_bootstrap_parsed (v : JSValue) :
  truthy (localStorage w !! auth_user) = true ->
  JSON_parse (to_string (localStorage w !! auth_user)) = Some v ->
  exec bootstrap w =
  {| state := authReducer (state w) (LOGIN_SUCCESS v);
     localStorage := localStorage w;
     dispatched := dispatched w ++ [LOGIN_SUCCESS v] |}.
Proof.
  intros Htruthy Hparse. unfold exec, bootstrap, bind, getItem. rewrite Htruthy.
  unfold try_catch, bind, JSON_parse_or_throw. rewrite Hparse. reflexivity.
Qed.

Lemma exec_bootstrap_corrupt :
  truthy (localStorage w !! auth_user) = true ->
  JSON_parse (to_string (localStorage w !! auth_user)) = None ->
  exec bootstrap w =
  {| state := authReducer (state w) LOGOUT;
     localStorage := delete auth_user (localStorage w);
     dispatched := dispatched w ++ [LOGOUT] |}.
Proof.
  intros Htruthy Hparse. unfold exec, bootstrap, bind, getItem. rewrite Htruthy.
  unfold try_catch, bind, JSON_parse_or_throw. rewrite Hparse. reflexivity.
Qed.

End Operations.

(** Case analysis on the path the mount effect takes from [w]: rewrites
    [exec bootstrap w] in the goal along each of the three. *)
Ltac bootstrap_cases w :=
  let Htruthy := fresh "Htruthy" in
  let Hparse := fresh "Hparse" in
  destruct (truthy (localStorage w !! auth_user)) eqn:Htruthy;
  [ destruct (JSON_parse (to_string (localStorage w !! auth_user)))
      as [?payload |] eqn:Hparse;
    [ rewrite (exec_bootstrap_parsed w _ Htruthy Hparse)
    | rewrite (exec_bootstrap_corrupt w Htruthy Hparse) ]
  | rewrite (exec_bootstrap_falsy w Htruthy) ].

(** Case analysis on whether the browser accepts the write of a login. *)
Ltac login_cases w env :=
  let Hfits := fresh "Hfits" in
  destruct (storage_fits env) eqn:Hfits;
  [ rewrite (exec_login_fits w env _ _ Hfits)
  | rewrite (exec_login_full w env _ _ Hfits) ].

(** No operation lets an exception escape. *)
Lemma perform_returns (op : Op) (w : World) : fst (perform op w) = inr tt.
Proof.
  destruct op as [| env email name |]; cbn [perform].
  - unfold bootstrap, bind, getItem.
    destruct (truthy (localStorage w !! auth_user)); [| reflexivity].
    unfold try_catch, bind, JSON_parse_or_throw.
    destruct (JSON_parse (to_string (localStorage w !! auth_user))); reflexivity.
  - unfold login, login_attempt, try_catch, bind, sleep, ret, setItem, dispatch.
    destruct (storage_fits env); reflexivity.
  - reflexivity.
Qed.

(** What each operation appends to the log. *)
Lemma dispatched_perform (op : Op) (w : World) :
  exists actions,
    dispatched (exec (perform op) w) = dispatched w ++ actions
    /\ state (exec (perform op) w) = fold_left authReducer actions (state w)
    /\ (forall m, In (LOGIN_FAILURE m) actions ->
                  m = failure_message /\ failed_login op = true).
Proof.
  destruct op as [| env email name |]; cbn [perform].
  - bootstrap_cases w; eexists; (split; [reflexivity |]); (split; [reflexivity |]);
      intros m [Hin | []]; discriminate.
  - login_cases w env; eexists; (split; [reflexivity |]); (split; [reflexivity |]);
      intros m [Hin | [Hin | []]]; try discriminate.
    injection Hin as <-. cbn [failed_login]. rewrite Hfits. split; reflexivity.
  - rewrite exec_logout. eexists. split; [reflexivity |]. split; [reflexivity |].
    intros m [Hin | []]; discriminate.
Qed.

(* ===================================================================== *)
(** ** Route guards *)
(* ===================================================================== *)

(** C8. [ProtectedRoute] as a function of the session state: while
    [isLoading] it renders the waiting indicator whatever
    [isAuthenticated] is; once loaded and not authenticated it redirects
    to [/login]; once loaded and authenticated it renders its children. *)
Theorem protected_route_decision {C : Type} (children : C)
    (u : JSValue) (authenticated : bool) (e : option jsstring) :
  ProtectedRoute
    (Some {| user := u; isAuthenticated := authenticated; isLoading := true; error := e |})
    children = inr Spinner
  /\ ProtectedRoute
       (Some {| user := u; isAuthenticated := false; isLoading := false; error := e |})
       children = inr (Navigate "/login" true)
  /\ ProtectedRoute
       (Some {| user := u; isAuthenticated := true; isLoading := false; error := e |})
       children = inr (Fragment children).
Proof. repeat split. Qed.

(** The same decision read off the two flags of any state. *)
Lemma protected_route_cases {C : Type} (children : C) (s : AuthState) :
  ProtectedRoute (Some s) children =
  inr (if isLoading s then Spinner
       else if isAuthenticated s then Fragment children
       else Navigate "/login" true).
Proof.
  unfold ProtectedRoute, useAuth.
  destruct (isLoading s), (isAuthenticated s); reflexivity.
Qed.

(** While [isLoading], neither guard renders its children: no page, and
    so no control that calls [login] or [logout], is mounted while a
    login is in flight. *)
Lemma guards_while_loading {C : Type} (children : C) (s : AuthState) :
  isLoading s = true ->
  ProtectedRoute (Some s) children = inr Spinner
  /\ PublicRoute (Some s) children = inr Null.
Proof.
  intros Hloading. unfold ProtectedRoute, PublicRoute, useAuth.
  rewrite Hloading. split; reflexivity.
Qed.

(** Outside a provider a guard throws. *)
Lemma guard_outside_provider {C : Type} (children : C) :
  ProtectedRoute None children = inl "useAuth must be used within AuthProvider"%string
  /\ PublicRoute None children = inl "useAuth must be used within AuthProvider"%string.
Proof. split; reflexivity. Qed.

(* ===================================================================== *)
(** ** Logout *)
(* ===================================================================== *)

(** C6. [logout] is idempotent on the session state and on the store: a
    second call right after a first changes neither, and a call made
    when logged out (no user, not authenticated, no stored record)
    changes neither. *)
Theorem logout_idempotent (w : World) :
  (state (exec logout (exec logout w)) = state (exec logout w)
   /\ localStorage (exec logout (exec logout w)) = localStorage (exec logout w))
  /\ (forall (loading : bool) (e : option jsstring)
             (store : gmap jsstring jsstring) (log : list AuthAction),
        let w0 := {| state := {| user := JNull; isAuthenticated := false;
                                 isLoading := loading; error := e |};
                     localStorage := delete auth_user store;
                     dispatched := log |} in
        state (exec logout w0) = state w0
        /\ localStorage (exec logout w0) = localStorage w0).
Proof.
  split.
  - rewrite !exec_logout. cbn [state localStorage]. split.
    + apply authReducer_logout_idem.
    + apply delete_id, lookup_delete_eq.
  - intros loading e store log w0. subst w0.
    rewrite exec_logout. cbn [state localStorage]. split.
    + reflexivity.
    + apply delete_id, lookup_delete_eq.
Qed.

(** The same for a logged-out world given by its properties. *)
Lemma logout_when_logged_out (w : World) :
  isAuthenticated (state w) = false ->
  user (state w) = JNull ->
  localStorage w !! auth_user = None ->
  state (exec logout w) = state w /\ localStorage (exec logout w) = localStorage w.
Proof.
  intros Hauth Huser Hstore. rewrite exec_logout. cbn [state localStorage].
  split.
  - destruct (state w) as [u a l e]. cbn in *. subst. reflexivity.
  - apply delete_id, Hstore.
Qed.

(* ===================================================================== *)
(** ** Login *)
(* ===================================================================== *)

(** C9. When the [try] block of [login] throws, the call dispatches
    LOGIN_START and then LOGIN_FAILURE with the fixed message, and the
    store is what it was before the call: nothing written, nothing
    removed. *)
Theorem login_failure_keeps_store (env : Env) (email name : jsstring) (w : World) :
  (exists e, fst (login_attempt env email name (exec (dispatch LOGIN_START) w)) = inl e) ->
  dispatched (exec (login env email name) w)
    = dispatched w ++ [LOGIN_START; LOGIN_FAILURE failure_message]
  /\ localStorage (exec (login env email name) w) = localStorage w
  /\ error (state (exec (login env email name) w)) = Some failure_message
  /\ isLoading (state (exec (login env email name) w)) = false.
Proof.
  intros Hthrows. apply login_attempt_throws in Hthrows.
  rewrite exec_login_full by exact Hthrows.
  repeat split.
Qed.

Lemma login_failure_keeps_store_witness :
  let env := {| random_base36 := lit "0.4fzyo82mvyr"; storage_fits := false |} in
  let w := mount ∅ in
  (exists e, fst (login_attempt env (lit "a@b.com") (lit "a")
                                (exec (dispatch LOGIN_START) w)) = inl e)
  /\ dispatched (exec (login env (lit "a@b.com") (lit "a")) w)
     = dispatched w ++ [LOGIN_START; LOGIN_FAILURE failure_message]
  /\ localStorage (exec (login env (lit "a@b.com") (lit "a")) w) = localStorage w
  /\ error (state (exec (login env (lit "a@b.com") (lit "a")) w)) = Some failure_message
  /\ isLoading (state (exec (login env (lit "a@b.com") (lit "a")) w)) = false.
Proof.
  intros env w.
  assert (Hthrows : exists e, fst (login_attempt env (lit "a@b.com") (lit "a")
                                                 (exec (dispatch LOGIN_START) w)) = inl e)
    by (exists QuotaExceededError; reflexivity).
  split; [exact Hthrows |].
  exact (login_failure_keeps_store env (lit "a@b.com") (lit "a") w Hthrows).
Defined.

(** C10, as stated: every call of [login] dispatches LOGIN_SUCCESS, never
    LOGIN_FAILURE, and leaves [error] null. It fails when the browser
    refuses the write: [setItem] is inside the [try] block, so the
    [catch] block runs and dispatches LOGIN_FAILURE. *)
Lemma login_can_fail :
  let env := {| random_base36 := lit "0.4fzyo82mvyr"; storage_fits := false |} in
  let w := exec (login env (lit "a@b.com") (lit "a")) (mount ∅) in
  (dispatched w = [LOGIN_START; LOGIN_FAILURE failure_message]
   /\ error (state w) = Some failure_message)
  /\ ~ ((exists u, In (LOGIN_SUCCESS u) (dispatched w))
        /\ ~ In (LOGIN_FAILURE failure_message) (dispatched w)
        /\ error (state w) = None).
Proof.
  intros env w. split.
  - split; reflexivity.
  - intros [_ [_ Herr]]. vm_compute in Herr. discriminate.
Qed.

(** C10, amended. The timer always resolves and building the identity
    never throws, so the [try] block of [login] throws only if the write
    to the store does. When the write is accepted, the block runs to
    its end: [login] dispatches LOGIN_START and then LOGIN_SUCCESS with
    the identity, never LOGIN_FAILURE, and [error] is null after the
    call. *)
Theorem login_succeeds_when_stored (env : Env) (email name : jsstring) (w : World) :
  storage_fits env = true ->
  fst (sleep 800 w) = inr tt
  /\ fst (login_attempt env email name (exec (dispatch LOGIN_START) w)) = inr tt
  /\ dispatched (exec (login env email name) w)
     = dispatched w ++ [LOGIN_START; LOGIN_SUCCESS (make_user env email name)]
  /\ error (state (exec (login env email name) w)) = None
  /\ isLoading (state (exec (login env email name) w)) = false
  /\ isAuthenticated (state (exec (login env email name) w)) = true.
Proof.
  intros Hfits. rewrite exec_login_fits by exact Hfits.
  split; [reflexivity |]. split; [| repeat split].
  unfold login_attempt, bind, sleep, ret, setItem, dispatch.
  rewrite Hfits. reflexivity.
Qed.

Lemma login_succeeds_when_stored_witness :
  let env := {| random_base36 := lit "0.4fzyo82mvyr"; storage_fits := true |} in
  let w := mount ∅ in
  storage_fits env = true
  /\ fst (sleep 800 w) = inr tt
  /\ fst (login_attempt env (lit "a@b.com") (lit "a") (exec (dispatch LOGIN_START) w)) = inr tt
  /\ dispatched (exec (login env (lit "a@b.com") (lit "a")) w)
     = dispatched w ++ [LOGIN_START; LOGIN_SUCCESS (make_user env (lit "a@b.com") (lit "a"))]
  /\ error (state (exec (login env (lit "a@b.com") (lit "a")) w)) = None
  /\ isLoading (state (exec (login env (lit "a@b.com") (lit "a")) w)) = false
  /\ isAuthenticated (state (exec (login env (lit "a@b.com") (lit "a")) w)) = true.
Proof.
  intros env w. split; [reflexivity |].
  exact (login_succeeds_when_stored env (lit "a@b.com") (lit "a") w eq_refl).
Defined.

(** [login] ends with the message in [error] exactly when the write is
    refused. *)
Lemma login_failure_iff (env : Env) (email name : jsstring) (w : World) :
  error (state (exec (login env email name) w)) = Some failure_message
  <-> storage_fits env = false.
Proof.
  login_cases w env; cbn; split; (discriminate || reflexivity).
Qed.

(* ===================================================================== *)
(** ** Login, then a restart *)
(* ===================================================================== *)

Lemma make_user_string_valued (env : Env) (email name : jsstring) :
  exists props, make_user env email name = JObject props /\ Forall string_valued props.
Proof.
  eexists. split; [reflexivity |].
  repeat (constructor; [eexists; reflexivity |]). constructor.
Qed.

(** The record [login] writes parses back to the identity it printed. *)
Lemma JSON_parse_stringify_user (env : Env) (email name : jsstring) :
  JSON_parse (JSON_stringify (make_user env email name)) = Some (make_user env email name).
Proof.
  destruct (make_user_string_valued env email name) as [props [-> Hall]].
  apply JSON_parse_stringify_flat, Hall.
Qed.

Lemma JSON_stringify_object_truthy (props : list (jsstring * JSValue)) :
  truthy (Some (JSON_stringify (JObject props))) = true.
Proof. reflexivity. Qed.

(** C7. A [login] whose write to the store was accepted, followed by a
    restart over the same store, ends authenticated with the very
    identity the login produced: the same [id], [email], [name] and
    [avatar]. *)
Theorem login_then_restart (env : Env) (email name : jsstring) (w : World) :
  storage_fits env = true ->
  let w1 := exec (login env email name) w in
  let w2 := start (localStorage w1) in
  isAuthenticated (state w2) = true
  /\ user (state w2) = user (state w1)
  /\ get (lit "id") (user (state w2)) = Some (JString (substr 2 9 (random_base36 env)))
  /\ get (lit "email") (user (state w2)) = Some (JString email)
  /\ get (lit "name") (user (state w2)) = Some (JString name)
  /\ get (lit "avatar") (user (state w2)) = Some (JString (avatar_prefix ++ name)).
Proof.
  intros Hfits w1 w2. subst w2 w1. unfold start.
  rewrite exec_login_fits by exact Hfits. cbn [localStorage state].
  rewrite (exec_bootstrap_parsed _ (make_user env email name)).
  - cbn [state authReducer isAuthenticated user].
    repeat split.
  - cbn [mount localStorage]. rewrite lookup_insert_eq. reflexivity.
  - cbn [mount localStorage]. rewrite lookup_insert_eq.
    apply JSON_parse_stringify_user.
Qed.

Lemma login_then_restart_witness :
  let env := {| random_base36 := lit "0.4fzyo82mvyr"; storage_fits := true |} in
  let w1 := exec (login env (lit "a@b.com") (lit "a")) (mount ∅) in
  let w2 := start (localStorage w1) in
  storage_fits env = true
  /\ isAuthenticated (state w2) = true
  /\ user (state w2) = user (state w1)
  /\ get (lit "id") (user (state w2)) = Some (JString (substr 2 9 (random_base36 env)))
  /\ get (lit "email") (user (state w2)) = Some (JString (lit "a@b.com"))
  /\ get (lit "name") (user (state w2)) = Some (JString (lit "a"))
  /\ get (lit "avatar") (user (state w2)) = Some (JString (avatar_prefix ++ lit "a")).
Proof.
  intros env. split; [reflexivity |].
  exact (login_then_restart env (lit "a@b.com") (lit "a") (mount ∅) eq_refl).
Defined.

(* ===================================================================== *)
(** ** Bootstrap *)
(* ===================================================================== *)

(** When the mount effect resolves [isLoading]: exactly when the store
    holds a non-empty text that [JSON.parse] accepts. *)
Lemma bootstrap_resolves_iff (store : gmap jsstring jsstring) :
  isLoading (state (start store)) = false
  <-> exists text v, store !! auth_user = Some text /\ text <> [] /\ JSON_parse text = Some v.
Proof.
  unfold start. bootstrap_cases (mount store); cbn in *.
  - split; [| reflexivity]. intros _.
    apply truthy_inv in Htruthy as (text & Hget & Hne & Hto).
    rewrite Hto in Hparse. eauto.
  - split; [discriminate |]. intros (text & v & Hget & _ & Hp).
    rewrite Hget in Hparse. cbn in Hparse. congruence.
  - split; [discriminate |]. intros (text & v & Hget & Hne & _).
    rewrite Hget, truthy_Some in Htruthy by exact Hne. discriminate.
Qed.

(** C1, at a fresh browser profile (nothing stored): the mount effect
    dispatches LOGOUT only, which keeps [isLoading], so the state after
    bootstrap still has [isLoading = true] and no transition resolved
    it. *)
Theorem bootstrap_absent_keeps_loading :
  dispatched (start ∅) = [LOGOUT]
  /\ isLoading (state (start ∅)) = true
  /\ resolutions (transitions initialState (dispatched (start ∅))) = 0%nat.
Proof. vm_compute. repeat split. Qed.

(** From there both guards stay on their loading branch: the login page
    is never rendered. *)
Lemma fresh_profile_stuck {C : Type} (children : C) :
  ProtectedRoute (Some (state (start ∅))) children = inr Spinner
  /\ PublicRoute (Some (state (start ∅))) children = inr Null.
Proof. split; reflexivity. Qed.

(** The same when the stored text is not JSON: the record is purged but
    [isLoading] stays [true]. *)
Lemma bootstrap_corrupt_keeps_loading :
  let w := start {[ auth_user := lit "{oops" ]} in
  dispatched w = [LOGOUT] /\ isLoading (state w) = true /\ localStorage w = ∅.
Proof. vm_compute. repeat split. Qed.

(** With a parsable record the effect resolves [isLoading], once. *)
Lemma bootstrap_parsed_resolves_once (store : gmap jsstring jsstring)
    (text : jsstring) (v : JSValue) :
  store !! auth_user = Some text -> text <> [] -> JSON_parse text = Some v ->
  isLoading (state (start store)) = false
  /\ resolutions (transitions initialState (dispatched (start store))) = 1%nat.
Proof.
  intros Hget Hne Hparse. unfold start.
  rewrite (exec_bootstrap_parsed _ v).
  - split; reflexivity.
  - cbn [mount localStorage]. rewrite Hget. apply truthy_Some, Hne.
  - cbn [mount localStorage]. rewrite Hget. exact Hparse.
Qed.

(** C3, as stated, at a stored text that is JSON but not an identity
    record: the empty object is taken as the user, the session is
    authenticated and the record stays in the store. And at the empty
    text, which is not JSON: it is falsy, so the effect takes the branch
    of an absent record and leaves it in the store. *)
Lemma schema_invalid_record_accepted :
  let store : gmap jsstring jsstring := {[ auth_user := lit "{}" ]} in
  let w := start store in
  let store' : gmap jsstring jsstring := {[ auth_user := [] ]} in
  let w' := start store' in
  ((JSON_parse (lit "{}") = Some (JObject []) /\ is_identity (JObject []) = false)
   /\ (isAuthenticated (state w) = true /\ user (state w) = JObject []
       /\ localStorage w = store)
   /\ ~ (isAuthenticated (state w) = false
         /\ user (state w) = JNull
         /\ localStorage w !! auth_user = None))
  /\ (JSON_parse [] = None
      /\ localStorage w' = store'
      /\ ~ (isAuthenticated (state w') = false
            /\ user (state w') = JNull
            /\ localStorage w' !! auth_user = None)).
Proof.
  intros store w store' w'. split; split.
  - split; reflexivity.
  - split.
    + vm_compute. repeat split.
    + intros [Hauth _]. vm_compute in Hauth. discriminate.
  - reflexivity.
  - split.
    + vm_compute. reflexivity.
    + intros [_ [_ Hget]]. vm_compute in Hget. discriminate.
Qed.

(** C3, amended. For every non-empty stored text that [JSON.parse]
    rejects, bootstrap ends not authenticated, without a user, and with
    the record removed from the store. *)
Theorem corrupt_record_purged (store : gmap jsstring jsstring) (text : jsstring) :
  store !! auth_user = Some text ->
  text <> [] ->
  JSON_parse text = None ->
  isAuthenticated (state (start store)) = false
  /\ user (state (start store)) = JNull
  /\ localStorage (start store) = delete auth_user store
  /\ localStorage (start store) !! auth_user = None.
Proof.
  intros Hget Hne Hparse. unfold start.
  rewrite exec_bootstrap_corrupt.
  - cbn [state localStorage mount authReducer isAuthenticated user].
    repeat split. apply lookup_delete_eq.
  - cbn [mount localStorage]. rewrite Hget. apply truthy_Some, Hne.
  - cbn [mount localStorage]. rewrite Hget. exact Hparse.
Qed.

Lemma corrupt_record_purged_witness :
  let store : gmap jsstring jsstring := {[ auth_user := lit "{oops" ]} in
  (store !! auth_user = Some (lit "{oops")
   /\ lit "{oops" <> []
   /\ JSON_parse (lit "{oops") = None)
  /\ isAuthenticated (state (start store)) = false
  /\ user (state (start store)) = JNull
  /\ localStorage (start store) = delete auth_user store
  /\ localStorage (start store) !! auth_user = None.
Proof.
  intros store.
  assert (Hget : store !! auth_user = Some (lit "{oops")) by reflexivity.
  assert (Hne : lit "{oops" <> []) by discriminate.
  assert (Hparse : JSON_parse (lit "{oops") = None) by reflexivity.
  split; [repeat split; assumption |].
  exact (corrupt_record_purged store (lit "{oops") Hget Hne Hparse).
Defined.

(** What bootstrap does with any text [JSON.parse] accepts, whatever its
    shape: the value becomes the user and the store is not touched. *)
Lemma parsed_record_accepted (store : gmap jsstring jsstring) (text : jsstring) (v : JSValue) :
  store !! auth_user = Some text -> text <> [] -> JSON_parse text = Some v ->
  isAuthenticated (state (start store)) = true
  /\ user (state (start store)) = v
  /\ localStorage (start store) = store.
Proof.
  intros Hget Hne Hparse. unfold start.
  rewrite (exec_bootstrap_parsed _ v).
  - repeat split.
  - cbn [mount localStorage]. rewrite Hget. apply truthy_Some, Hne.
  - cbn [mount localStorage]. rewrite Hget. exact Hparse.
Qed.

(* ===================================================================== *)
(** ** The invariant: an authenticated session has a user *)
(* ===================================================================== *)

(** C2, as stated, at a store holding the text [null]: bootstrap parses
    it, dispatches LOGIN_SUCCESS with [null], and the state is
    authenticated without a user. *)
Lemma null_record_authenticates :
  let w := run [Bootstrap] (mount {[ auth_user := lit "null" ]}) in
  (isAuthenticated (state w) = true /\ user (state w) = JNull)
  /\ ~ (isAuthenticated (state w) = true -> user (state w) <> JNull).
Proof.
  intros w. split.
  - split; reflexivity.
  - intros Hinv. apply Hinv; reflexivity.
Qed.

Section Invariant.

Lemma store_sound_delete (store : gmap jsstring jsstring) :
  store_sound (delete auth_user store) = true.
Proof. unfold store_sound. rewrite lookup_delete_eq. reflexivity. Qed.

Lemma store_sound_login (store : gmap jsstring jsstring) (env : Env) (email name : jsstring) :
  store_sound (<[auth_user := JSON_stringify (make_user env email name)]> store) = true.
Proof.
  unfold store_sound. rewrite lookup_insert_eq, JSON_parse_stringify_user. reflexivity.
Qed.

Lemma session_ok_mount (store : gmap jsstring jsstring) :
  store_sound store = true -> session_ok (mount store).
Proof. intros Hs. split; [exact Hs | discriminate]. Qed.

Lemma session_ok_perform (op : Op) (w : World) :
  session_ok w -> session_ok (exec (perform op) w).
Proof.
  intros [Hstore Huser]. destruct op as [| env email name |]; cbn [perform].
  - bootstrap_cases w.
    + split; [exact Hstore |]. cbn. intros _ ->.
      apply truthy_inv in Htruthy as (text & Hget & _ & Hto).
      unfold store_sound in Hstore. rewrite Hto in Hparse.
      rewrite Hget, Hparse in Hstore. discriminate.
    + split; [apply store_sound_delete | discriminate].
    + split; [exact Hstore | discriminate].
  - login_cases w env.
    + split; [apply store_sound_login | discriminate].
    + split; [exact Hstore | exact Huser].
  - rewrite exec_logout. split; [apply store_sound_delete | discriminate].
Qed.

Lemma session_ok_run (ops : list Op) :
  forall w, session_ok w -> session_ok (run ops w).
Proof.
  induction ops as [| op ops IH]; intros w Hok; [exact Hok |].
  cbn [run fold_left]. apply IH, session_ok_perform, Hok.
Qed.

End Invariant.

(** C2, amended. Over a store whose session record does not parse to
    [null] (an absent, empty or unparsable record included), every state
    reached from the initial state by bootstrap, login and logout, in
    any number and order, has a user whenever it is authenticated. *)
Theorem authenticated_has_user (store : gmap jsstring jsstring) (ops : list Op) :
  store_sound store = true ->
  isAuthenticated (state (run ops (mount store))) = true ->
  user (state (run ops (mount store))) <> JNull.
Proof.
  intros Hsound.
  apply (session_ok_run ops (mount store)), session_ok_mount, Hsound.
Qed.

Lemma authenticated_has_user_witness :
  let env := {| random_base36 := lit "0.4fzyo82mvyr"; storage_fits := true |} in
  let ops := [Bootstrap; Login env (lit "a@b.com") (lit "a")] in
  (store_sound ∅ = true /\ isAuthenticated (state (run ops (mount ∅))) = true)
  /\ user (state (run ops (mount ∅))) <> JNull.
Proof.
  intros env ops. split; [split; reflexivity |].
  exact (authenticated_has_user ∅ ops eq_refl eq_refl).
Defined.

(** The store the controller itself writes is always sound, so the
    invariant holds from a fresh profile onwards. *)
Corollary fresh_profile_has_user (ops : list Op) :
  isAuthenticated (state (run ops (mount ∅))) = true ->
  user (state (run ops (mount ∅))) <> JNull.
Proof.
  apply (session_ok_run ops (mount ∅)), session_ok_mount. reflexivity.
Qed.

(* ===================================================================== *)
(** ** The discipline of [error] *)
(* ===================================================================== *)

Section ErrorDiscipline.

Lemma transitions_app (s : AuthState) (l1 l2 : list AuthAction) :
  transitions s (l1 ++ l2)
  = transitions s l1 ++ transitions (fold_left authReducer l1 s) l2.
Proof.
  revert s. induction l1 as [| a l1 IH]; intros s; [reflexivity |].
  cbn [app transitions fold_left]. rewrite IH. reflexivity.
Qed.

(** One transition, whatever the state it starts from. *)

Lemma discipline_logout (s : AuthState) :
  error_discipline (s, LOGOUT, authReducer s LOGOUT).
Proof.
  split; [| split]; cbn; try discriminate. intros H1 H2. contradiction.
Qed.

Lemma discipline_start (s : AuthState) :
  error_discipline (s, LOGIN_START, authReducer s LOGIN_START).
Proof.
  split; [| split]; cbn; try discriminate; try reflexivity.
  intros H1 H2. contradiction.
Qed.

Lemma discipline_failure (s : AuthState) :
  error_discipline (s, LOGIN_FAILURE failure_message,
                    authReducer s (LOGIN_FAILURE failure_message)).
Proof.
  split; [| split]; cbn; try discriminate. reflexivity.
Qed.

(** LOGIN_SUCCESS keeps [error]: it obeys the discipline from a state
    whose [error] is null already. *)
Lemma discipline_success (s : AuthState) (u : JSValue) :
  error s = None ->
  error_discipline (s, LOGIN_SUCCESS u, authReducer s (LOGIN_SUCCESS u)).
Proof.
  intros Hnull. split; [| split]; cbn; try discriminate.
  - intros _ H. contradiction.
  - intros _ _. exact Hnull.
Qed.

Lemma log_ok_extend (w : World) (s' : AuthState) (store : gmap jsstring jsstring)
    (l : list AuthAction) :
  log_ok w ->
  s' = fold_left authReducer l (state w) ->
  Forall error_discipline (transitions (state w) l) ->
  log_ok {| state := s'; localStorage := store; dispatched := dispatched w ++ l |}.
Proof.
  intros [Hstate Hall] -> Hnew. split; cbn [state dispatched].
  - rewrite fold_left_app, <- Hstate. reflexivity.
  - rewrite transitions_app, <- Hstate. apply Forall_app. split; assumption.
Qed.

(** The mount effect starts from the initial state, whose [error] is
    null. *)
Lemma log_ok_start (store : gmap jsstring jsstring) : log_ok (start store).
Proof.
  unfold start.
  bootstrap_cases (mount store); (split; [reflexivity |]);
    cbn [dispatched mount app transitions]; (constructor; [| constructor]).
  - apply discipline_success. reflexivity.
  - apply discipline_logout.
  - apply discipline_logout.
Qed.

(** In [login], LOGIN_SUCCESS comes right after LOGIN_START. *)
Lemma log_ok_call (op : Op) (w : World) :
  is_call op = true -> log_ok w -> log_ok (exec (perform op) w).
Proof.
  intros Hcall Hok. destruct op as [| env email name |]; [discriminate | |]; cbn [perform].
  - login_cases w env; (apply log_ok_extend; [exact Hok | reflexivity |]);
      cbn [transitions]; (constructor; [| constructor; [| constructor]]).
    + apply discipline_start.
    + apply discipline_success. reflexivity.
    + apply discipline_start.
    + apply discipline_failure.
  - rewrite exec_logout.
    apply log_ok_extend; [exact Hok | reflexivity |].
    cbn [transitions]. constructor; [apply discipline_logout | constructor].
Qed.

Lemma log_ok_run (ops : list Op) :
  forall w, forallb is_call ops = true -> log_ok w -> log_ok (run ops w).
Proof.
  induction ops as [| op ops IH]; intros w Hcalls Hok; [exact Hok |].
  cbn [forallb] in Hcalls. apply andb_true_iff in Hcalls as [Hcall Hcalls].
  cbn [run fold_left]. apply IH; [exact Hcalls |]. apply log_ok_call; assumption.
Qed.

(** A LOGIN_FAILURE in the log was there before, or comes from a login
    among [ops] whose write was refused. *)
Lemma failure_in_log (ops : list Op) :
  forall (w : World) (m : jsstring),
    In (LOGIN_FAILURE m) (dispatched (run ops w)) ->
    In (LOGIN_FAILURE m) (dispatched w)
    \/ (m = failure_message /\ existsb failed_login ops = true).
Proof.
  induction ops as [| op ops IH]; intros w m Hin; [left; exact Hin |].
  cbn [run fold_left] in Hin. apply IH in Hin as [Hin | [-> Hex]].
  - destruct (dispatched_perform op w) as (actions & Hlog & _ & Hfail).
    rewrite Hlog in Hin. apply in_app_or in Hin as [Hin | Hin]; [left; exact Hin |].
    right. apply Hfail in Hin as [-> Hop]. split; [reflexivity |].
    cbn [existsb]. rewrite Hop. reflexivity.
  - right. split; [reflexivity |]. cbn [existsb]. rewrite Hex.
    apply orb_true_r.
Qed.

Lemma start_no_failure (store : gmap jsstring jsstring) (m : jsstring) :
  ~ In (LOGIN_FAILURE m) (dispatched (start store)).
Proof.
  unfold start. bootstrap_cases (mount store); cbn; intros [H | []]; discriminate.
Qed.

End ErrorDiscipline.

(** C5. In a process (bootstrap at mount, then any sequence of login and
    logout calls, each run to completion), along the transitions the
    state goes through: [error] turns non-null only by a LOGIN_FAILURE,
    which only a login whose attempt failed dispatches; it is null after
    every LOGIN_START; and it is null after every LOGIN_SUCCESS. *)
Theorem error_set_and_cleared (store : gmap jsstring jsstring) (ops : list Op) :
  forallb is_call ops = true ->
  state (run ops (start store))
    = fold_left authReducer (dispatched (run ops (start store))) initialState
  /\ Forall error_discipline
       (transitions initialState (dispatched (run ops (start store))))
  /\ (forall m, In (LOGIN_FAILURE m) (dispatched (run ops (start store))) ->
                m = failure_message /\ existsb failed_login ops = true).
Proof.
  intros Hcalls. split; [| split].
  - apply (log_ok_run ops (start store) Hcalls), log_ok_start.
  - apply (log_ok_run ops (start store) Hcalls), log_ok_start.
  - intros m Hin. apply failure_in_log in Hin as [Hin | Hin]; [| exact Hin].
    exfalso. exact (start_no_failure store m Hin).
Qed.

Lemma error_set_and_cleared_witness :
  let failing := {| random_base36 := lit "0.4fzyo82mvyr"; storage_fits := false |} in
  let passing := {| random_base36 := lit "0.4fzyo82mvyr"; storage_fits := true |} in
  let ops := [Login failing (lit "a@b.com") (lit "a"); Logout;
              Login passing (lit "a@b.com") (lit "a")] in
  forallb is_call ops = true
  /\ state (run ops (start ∅))
     = fold_left authReducer (dispatched (run ops (start ∅))) initialState
  /\ Forall error_discipline
       (transitions initialState (dispatched (run ops (start ∅))))
  /\ (forall m, In (LOGIN_FAILURE m) (dispatched (run ops (start ∅))) ->
                m = failure_message /\ existsb failed_login ops = true).
Proof.
  intros failing passing ops. split; [reflexivity |].
  exact (error_set_and_cleared ∅ ops eq_refl).
Defined.

(** After each completed call: a login ends with [error] null when the
    write was accepted and with the fixed message when it was refused;
    logout and the mount effect keep [error]. *)
Lemma error_after_call (op : Op) (w : World) :
  error (state (exec (perform op) w)) =
  match op with
  | Login env _ _ => if storage_fits env then None else Some failure_message
  | Logout | Bootstrap => error (state w)
  end.
Proof.
  destruct op as [| env email name |]; cbn [perform].
  - bootstrap_cases w; reflexivity.
  - login_cases w env; reflexivity.
  - reflexivity.
Qed.

(* ===================================================================== *)
(** ** The two guards together, and the routes of [App] *)
(* ===================================================================== *)

(** X1. [PublicRoute] is the mirror image of [ProtectedRoute]: while
    [isLoading] it renders nothing; once loaded, exactly one of the two
    guards renders its children and the other redirects, to [/dashboard]
    when authenticated and to [/login] when not. *)
Theorem guards_mirror {C : Type} (children : C)
    (u : JSValue) (authenticated : bool) (e : option jsstring) :
  PublicRoute
    (Some {| user := u; isAuthenticated := authenticated; isLoading := true; error := e |})
    children = inr Null
  /\ (PublicRoute
        (Some {| user := u; isAuthenticated := true; isLoading := false; error := e |})
        children = inr (Navigate "/dashboard" true)
      /\ ProtectedRoute
           (Some {| user := u; isAuthenticated := true; isLoading := false; error := e |})
           children = inr (Fragment children))
  /\ (PublicRoute
        (Some {| user := u; isAuthenticated := false; isLoading := false; error := e |})
        children = inr (Fragment children)
      /\ ProtectedRoute
           (Some {| user := u; isAuthenticated := false; isLoading := false; error := e |})
           children = inr (Navigate "/login" true)).
Proof. repeat split. Qed.

Lemma App_matched (matchRoute : string -> option RouteId) (s : AuthState)
    (pathname : string) (r : RouteId) :
  matchRoute pathname = Some r ->
  App matchRoute s pathname = route_element r (Some s).
Proof. intros Hmatch. unfold App. rewrite Hmatch. reflexivity. Qed.

Lemma match_exact_paths (r : RouteId) : match_exact (route_path r) = Some r.
Proof. destruct r; reflexivity. Qed.

Section Routes.

Variable matchRoute : string -> option RouteId.

(** The router resolves the targets of the two guards' redirects to the
    routes declared under these very paths. *)
Hypothesis match_login : matchRoute "/login" = Some LoginRoute.
Hypothesis match_dashboard : matchRoute "/dashboard" = Some DashboardRoute.

Lemma settle_unmatched (fuel : nat) (s : AuthState) (pathname : string) :
  matchRoute pathname = None ->
  settle matchRoute (S fuel) s pathname = Shows pathname Null.
Proof. intros Hnone. cbn [settle]. unfold App. rewrite Hnone. reflexivity. Qed.

Lemma settle_loading (fuel : nat) (s : AuthState) (pathname : string) (r : RouteId) :
  matchRoute pathname = Some r ->
  isLoading s = true ->
  settle matchRoute (S (S fuel)) s pathname =
  match r with
  | LoginRoute | RegisterRoute => Shows pathname Null
  | DashboardRoute => Shows pathname Spinner
  | RootRoute => Shows "/dashboard" Spinner
  end.
Proof.
  intros Hmatch Hloading.
  assert (Hdash : forall f, settle matchRoute (S f) s "/dashboard" = Shows "/dashboard" Spinner).
  { intros f. cbn [settle]. rewrite (App_matched _ _ _ _ match_dashboard).
    cbn [route_element]. unfold ProtectedRoute, useAuth. rewrite Hloading. reflexivity. }
  destruct r.
  - cbn [settle]. rewrite (App_matched _ _ _ _ Hmatch).
    cbn [route_element]. unfold PublicRoute, useAuth. rewrite Hloading. reflexivity.
  - cbn [settle]. rewrite (App_matched _ _ _ _ Hmatch).
    cbn [route_element]. unfold PublicRoute, useAuth. rewrite Hloading. reflexivity.
  - cbn [settle]. rewrite (App_matched _ _ _ _ Hmatch).
    cbn [route_element]. unfold ProtectedRoute, useAuth. rewrite Hloading. reflexivity.
  - change (settle matchRoute (S (S fuel)) s pathname)
      with (match App matchRoute s pathname with
            | inl message => Throws message
            | inr (Navigate to _) => settle matchRoute (S fuel) s to
            | inr e => Shows pathname e
            end).
    rewrite (App_matched _ _ _ _ Hmatch). cbn [route_element]. apply Hdash.
Qed.

Lemma settle_dashboard_authenticated (fuel : nat) (s : AuthState) (pathname : string) :
  matchRoute pathname = Some DashboardRoute ->
  isLoading s = false -> isAuthenticated s = true ->
  settle matchRoute (S fuel) s pathname = Shows pathname (Fragment Dashboard).
Proof.
  intros Hmatch Hloading Hauth. cbn [settle]. rewrite (App_matched _ _ _ _ Hmatch).
  cbn [route_element]. unfold ProtectedRoute, useAuth. rewrite Hloading, Hauth. reflexivity.
Qed.

Lemma settle_login_anonymous (fuel : nat) (s : AuthState) (pathname : string) :
  matchRoute pathname = Some LoginRoute ->
  isLoading s = false -> isAuthenticated s = false ->
  settle matchRoute (S fuel) s pathname = Shows pathname (Fragment LoginPage).
Proof.
  intros Hmatch Hloading Hauth. cbn [settle]. rewrite (App_matched _ _ _ _ Hmatch).
  cbn [route_element]. unfold PublicRoute, useAuth. rewrite Hloading, Hauth. reflexivity.
Qed.

Lemma settle_step (fuel : nat) (s : AuthState) (pathname : string) :
  settle matchRoute (S fuel) s pathname =
  match App matchRoute s pathname with
  | inl message => Throws message
  | inr (Navigate to _) => settle matchRoute fuel s to
  | inr e => Shows pathname e
  end.
Proof. reflexivity. Qed.

Lemma settle_authenticated (fuel : nat) (s : AuthState) (pathname : string) (r : RouteId) :
  matchRoute pathname = Some r ->
  isLoading s = false -> isAuthenticated s = true ->
  settle matchRoute (S (S fuel)) s pathname =
  match r with
  | DashboardRoute => Shows pathname (Fragment Dashboard)
  | LoginRoute | RegisterRoute | RootRoute => Shows "/dashboard" (Fragment Dashboard)
  end.
Proof.
  intros Hmatch Hloading Hauth. destruct r.
  - rewrite settle_step, (App_matched _ _ _ _ Hmatch). cbn [route_element].
    unfold PublicRoute, useAuth. rewrite Hloading, Hauth. cbn [negb].
    apply settle_dashboard_authenticated; assumption.
  - rewrite settle_step, (App_matched _ _ _ _ Hmatch). cbn [route_element].
    unfold PublicRoute, useAuth. rewrite Hloading, Hauth. cbn [negb].
    apply settle_dashboard_authenticated; assumption.
  - apply settle_dashboard_authenticated; assumption.
  - rewrite settle_step, (App_matched _ _ _ _ Hmatch). cbn [route_element].
    apply settle_dashboard_authenticated; assumption.
Qed.

Lemma settle_anonymous (fuel : nat) (s : AuthState) (pathname : string) (r : RouteId) :
  matchRoute pathname = Some r ->
  isLoading s = false -> isAuthenticated s = false ->
  settle matchRoute (S (S (S fuel))) s pathname =
  match r with
  | LoginRoute => Shows pathname (Fragment LoginPage)
  | RegisterRoute => Shows pathname (Fragment RegisterPage)
  | DashboardRoute | RootRoute => Shows "/login" (Fragment LoginPage)
  end.
Proof.
  intros Hmatch Hloading Hauth.
  assert (Hdash : forall f, settle matchRoute (S (S f)) s "/dashboard"
                            = Shows "/login" (Fragment LoginPage)).
  { intros f. rewrite settle_step, (App_matched _ _ _ _ match_dashboard).
    cbn [route_element]. unfold ProtectedRoute, useAuth. rewrite Hloading, Hauth.
    apply settle_login_anonymous; assumption. }
  destruct r.
  - apply settle_login_anonymous; assumption.
  - rewrite settle_step, (App_matched _ _ _ _ Hmatch). cbn [route_element].
    unfold PublicRoute, useAuth. rewrite Hloading, Hauth. reflexivity.
  - rewrite settle_step, (App_matched _ _ _ _ Hmatch). cbn [route_element].
    unfold ProtectedRoute, useAuth. rewrite Hloading, Hauth.
    apply settle_login_anonymous; assumption.
  - rewrite settle_step, (App_matched _ _ _ _ Hmatch). cbn [route_element].
    apply Hdash.
Qed.

(** Where [App] comes to rest, from any location and in any state. *)
Lemma settle_cases (fuel : nat) (s : AuthState) (pathname : string) :
  settle matchRoute (S (S (S fuel))) s pathname =
  match matchRoute pathname with
  | None => Shows pathname Null
  | Some r =>
      if isLoading s then
        match r with
        | LoginRoute | RegisterRoute => Shows pathname Null
        | DashboardRoute => Shows pathname Spinner
        | RootRoute => Shows "/dashboard" Spinner
        end
      else if isAuthenticated s then
        match r with
        | DashboardRoute => Shows pathname (Fragment Dashboard)
        | LoginRoute | RegisterRoute | RootRoute => Shows "/dashboard" (Fragment Dashboard)
        end
      else
        match r with
        | LoginRoute => Shows pathname (Fragment LoginPage)
        | RegisterRoute => Shows pathname (Fragment RegisterPage)
        | DashboardRoute | RootRoute => Shows "/login" (Fragment LoginPage)
        end
  end.
Proof.
  destruct (matchRoute pathname) as [r |] eqn:Hmatch.
  - destruct (isLoading s) eqn:Hloading.
    + apply settle_loading; assumption.
    + destruct (isAuthenticated s) eqn:Hauth.
      * apply settle_authenticated; assumption.
      * apply settle_anonymous; assumption.
  - apply settle_unmatched, Hmatch.
Qed.

End Routes.

(** X2. The redirects of [App] never loop and never throw: from any
    location and in any state, after at most two redirects the
    application rests on an element that is not a redirect. While
    loading that is the waiting indicator or nothing; once loaded, an
    authenticated session rests on [Dashboard], and an anonymous one on
    [LoginPage], or on [RegisterPage] when it started there. *)
Theorem redirects_settle (matchRoute : string -> option RouteId) (fuel : nat)
    (s : AuthState) (pathname : string) :
  matchRoute "/login" = Some LoginRoute ->
  matchRoute "/dashboard" = Some DashboardRoute ->
  settle matchRoute (S (S (S fuel))) s pathname =
  match matchRoute pathname with
  | None => Shows pathname Null
  | Some r =>
      if isLoading s then
        match r with
        | LoginRoute | RegisterRoute => Shows pathname Null
        | DashboardRoute => Shows pathname Spinner
        | RootRoute => Shows "/dashboard" Spinner
        end
      else if isAuthenticated s then
        match r with
        | DashboardRoute => Shows pathname (Fragment Dashboard)
        | LoginRoute | RegisterRoute | RootRoute => Shows "/dashboard" (Fragment Dashboard)
        end
      else
        match r with
        | LoginRoute => Shows pathname (Fragment LoginPage)
        | RegisterRoute => Shows pathname (Fragment RegisterPage)
        | DashboardRoute | RootRoute => Shows "/login" (Fragment LoginPage)
        end
  end.
Proof. intros Hlogin Hdashboard. apply settle_cases; assumption. Qed.

Lemma redirects_settle_witness :
  let s := {| user := JNull; isAuthenticated := false; isLoading := false; error := None |} in
  (match_exact "/login" = Some LoginRoute /\ match_exact "/dashboard" = Some DashboardRoute)
  /\ settle match_exact 3 s "/" = Shows "/login" (Fragment LoginPage).
Proof.
  intros s. split; [split; reflexivity |].
  exact (redirects_settle match_exact 0 s "/" eq_refl eq_refl).
Defined.

(* ===================================================================== *)
(** ** The submit handlers *)
(* ===================================================================== *)

Section Split.

Variable sep : N.

Lemma split_not_nil (s : jsstring) : split sep s <> [].
Proof.
  destruct s as [| c s]; [discriminate |]. cbn [split].
  destruct (N.eqb c sep); [discriminate |].
  destruct (split sep s); discriminate.
Qed.

Lemma first_piece_cons (c : N) (s : jsstring) :
  first_piece (split sep (c :: s)) =
  if N.eqb c sep then [] else c :: first_piece (split sep s).
Proof.
  cbn [split]. destruct (N.eqb c sep); [reflexivity |].
  pose proof (split_not_nil s) as Hne.
  destruct (split sep s); [contradiction | reflexivity].
Qed.

(** The first piece holds no separator. *)
Lemma first_piece_no_sep (s : jsstring) : ~ In sep (first_piece (split sep s)).
Proof.
  induction s as [| c s IH]; [intros [] |].
  rewrite first_piece_cons. destruct (N.eqb_spec c sep) as [-> | Hne]; [intros [] |].
  intros [Heq | Hin]; [contradiction | exact (IH Hin)].
Qed.

(** It is the text up to the first separator, or all of it. *)
Lemma first_piece_prefix (s : jsstring) :
  s = first_piece (split sep s)
  \/ exists rest, s = first_piece (split sep s) ++ sep :: rest.
Proof.
  induction s as [| c s IH]; [left; reflexivity |].
  rewrite first_piece_cons. destruct (N.eqb_spec c sep) as [-> | Hne].
  - right. exists s. reflexivity.
  - destruct IH as [IH | [rest IH]].
    + left. f_equal. exact IH.
    + right. exists rest. cbn [app]. f_equal. exact IH.
Qed.

End Split.

(** [login] followed by a return: [login] never throws. *)
Lemma login_then_ret {A : Type} (env : Env) (email name : jsstring) (a : A) (w : World) :
  bind (login env email name) (fun _ => ret a) w = (inr a, exec (login env email name) w).
Proof.
  pose proof (perform_returns (Login env email name) w) as Hret. cbn [perform] in Hret.
  unfold bind, ret, exec.
  destruct (login env email name w) as [[e | []] w']; cbn [fst snd] in *;
    [discriminate | reflexivity].
Qed.

Lemma LoginPage_handleSubmit_filled (env : Env) (email password : jsstring) (w : World) :
  email <> [] -> password <> [] ->
  LoginPage_handleSubmit env email password w =
  (inr (Some "/dashboard"%string),
   exec (login env email (first_piece (split AT_SIGN email))) w).
Proof.
  intros Hemail Hpassword. unfold LoginPage_handleSubmit.
  rewrite !truthy_Some by assumption. cbn [andb]. apply login_then_ret.
Qed.

Lemma RegisterPage_handleSubmit_run (env : Env) (email name : jsstring) (w : World) :
  RegisterPage_handleSubmit env email name w =
  (inr (Some "/dashboard"%string), exec (login env email name) w).
Proof. apply login_then_ret. Qed.

(** X3. [handleSubmit] of [LoginPage] does nothing when a field is
    empty: no action is dispatched, the store is not touched and no
    navigation takes place. *)
Theorem login_form_empty_field (env : Env) (email password : jsstring) (w : World) :
  email = [] \/ password = [] ->
  LoginPage_handleSubmit env email password w = (inr None, w).
Proof.
  intros [-> | ->]; unfold LoginPage_handleSubmit; cbn [truthy andb].
  - reflexivity.
  - rewrite andb_false_r. reflexivity.
Qed.

Lemma login_form_empty_field_witness :
  let env := {| random_base36 := lit "0.4fzyo82mvyr"; storage_fits := true |} in
  (lit "a@b.com" = [] \/ @nil N = [])
  /\ LoginPage_handleSubmit env (lit "a@b.com") [] (start ∅) = (inr None, start ∅).
Proof.
  intros env.
  assert (Hempty : lit "a@b.com" = [] \/ @nil N = []) by (right; reflexivity).
  split; [exact Hempty |].
  exact (login_form_empty_field env (lit "a@b.com") [] (start ∅) Hempty).
Defined.

(** X4. The password typed into [LoginPage] is tested for emptiness and
    nothing else: two submissions that differ only in their non-empty
    passwords end in the same state, the same store, the same log and
    the same navigation. *)
Theorem login_form_ignores_password (env : Env) (email password password' : jsstring)
    (w : World) :
  password <> [] -> password' <> [] ->
  LoginPage_handleSubmit env email password w
  = LoginPage_handleSubmit env email password' w.
Proof.
  intros Hp Hp'. unfold LoginPage_handleSubmit.
  rewrite (truthy_Some password), (truthy_Some password') by assumption.
  reflexivity.
Qed.

Lemma login_form_ignores_password_witness :
  let env := {| random_base36 := lit "0.4fzyo82mvyr"; storage_fits := true |} in
  (lit "hunter2" <> [] /\ lit "correct horse" <> [])
  /\ LoginPage_handleSubmit env (lit "a@b.com") (lit "hunter2") (start ∅)
     = LoginPage_handleSubmit env (lit "a@b.com") (lit "correct horse") (start ∅).
Proof.
  intros env.
  assert (Hp : lit "hunter2" <> []) by discriminate.
  assert (Hp' : lit "correct horse" <> []) by discriminate.
  split; [split; assumption |].
  exact (login_form_ignores_password env (lit "a@b.com") _ _ (start ∅) Hp Hp').
Defined.

(** X5. A filled [LoginPage] form whose write is accepted: the handler
    navigates to [/dashboard], the session is authenticated, the user
    carries the email as typed and, as its name, the part of the email
    before the first at sign (all of it when there is none), and the
    application rests on [Dashboard]. *)
Theorem login_form_success (matchRoute : string -> option RouteId) (env : Env)
    (email password : jsstring) (w : World) :
  matchRoute "/dashboard" = Some DashboardRoute ->
  email <> [] -> password <> [] ->
  storage_fits env = true ->
  let result := LoginPage_handleSubmit env email password w in
  let name := first_piece (split AT_SIGN email) in
  fst result = inr (Some "/dashboard"%string)
  /\ isAuthenticated (state (snd result)) = true
  /\ get (lit "email") (user (state (snd result))) = Some (JString email)
  /\ get (lit "name") (user (state (snd result))) = Some (JString name)
  /\ ~ In AT_SIGN name
  /\ (email = name \/ exists rest, email = name ++ AT_SIGN :: rest)
  /\ settle matchRoute 3 (state (snd result)) "/dashboard"
     = Shows "/dashboard" (Fragment Dashboard).
Proof.
  intros Hdashboard Hemail Hpassword Hfits result name. subst result name.
  rewrite LoginPage_handleSubmit_filled by assumption. cbn [fst snd].
  rewrite exec_login_fits by exact Hfits. cbn [state].
  split; [reflexivity |]. split; [reflexivity |].
  split; [reflexivity |]. split; [reflexivity |].
  split; [apply first_piece_no_sep |].
  split; [apply first_piece_prefix |].
  apply (settle_dashboard_authenticated matchRoute); [exact Hdashboard | |]; reflexivity.
Qed.

Lemma login_form_success_witness :
  let env := {| random_base36 := lit "0.4fzyo82mvyr"; storage_fits := true |} in
  let result := LoginPage_handleSubmit env (lit "ada@b.com") (lit "hunter2") (start ∅) in
  (match_exact "/dashboard" = Some DashboardRoute
   /\ lit "ada@b.com" <> [] /\ lit "hunter2" <> [] /\ storage_fits env = true)
  /\ fst result = inr (Some "/dashboard"%string)
  /\ isAuthenticated (state (snd result)) = true
  /\ get (lit "email") (user (state (snd result))) = Some (JString (lit "ada@b.com"))
  /\ get (lit "name") (user (state (snd result)))
     = Some (JString (first_piece (split AT_SIGN (lit "ada@b.com"))))
  /\ ~ In AT_SIGN (first_piece (split AT_SIGN (lit "ada@b.com")))
  /\ (lit "ada@b.com" = first_piece (split AT_SIGN (lit "ada@b.com"))
      \/ exists rest,
           lit "ada@b.com" = first_piece (split AT_SIGN (lit "ada@b.com")) ++ AT_SIGN :: rest)
  /\ settle match_exact 3 (state (snd result)) "/dashboard"
     = Shows "/dashboard" (Fragment Dashboard).
Proof.
  intros env result.
  assert (He : lit "ada@b.com" <> []) by discriminate.
  assert (Hp : lit "hunter2" <> []) by discriminate.
  split; [repeat split; assumption |].
  exact (login_form_success match_exact env (lit "ada@b.com") (lit "hunter2") (start ∅)
           eq_refl He Hp eq_refl).
Defined.

(** X6. A submission whose write is refused, from either page and by an
    anonymous visitor: the handler navigates to [/dashboard] all the
    same, the store is untouched, [error] holds the fixed message, and
    the application comes to rest on [LoginPage] at [/login], also when
    the form submitted was the one of [RegisterPage]. *)
Theorem refused_submit_lands_on_login (matchRoute : string -> option RouteId) (env : Env)
    (email name password : jsstring) (w : World) :
  matchRoute "/login" = Some LoginRoute ->
  matchRoute "/dashboard" = Some DashboardRoute ->
  email <> [] -> password <> [] ->
  storage_fits env = false ->
  isAuthenticated (state w) = false ->
  (let result := LoginPage_handleSubmit env email password w in
   fst result = inr (Some "/dashboard"%string)
   /\ localStorage (snd result) = localStorage w
   /\ error (state (snd result)) = Some failure_message
   /\ settle matchRoute 3 (state (snd result)) "/dashboard"
      = Shows "/login" (Fragment LoginPage))
  /\ (let result := RegisterPage_handleSubmit env email name w in
      fst result = inr (Some "/dashboard"%string)
      /\ localStorage (snd result) = localStorage w
      /\ error (state (snd result)) = Some failure_message
      /\ settle matchRoute 3 (state (snd result)) "/dashboard"
         = Shows "/login" (Fragment LoginPage)).
Proof.
  intros Hlogin Hdashboard Hemail Hpassword Hfits Hanon.
  assert (Hrest : forall n,
             settle matchRoute 3
               (state (exec (login env email n) w)) "/dashboard"
             = Shows "/login" (Fragment LoginPage)).
  { intros n. rewrite exec_login_full by exact Hfits. cbn [state].
    rewrite (settle_anonymous matchRoute Hlogin Hdashboard 0 _ _ DashboardRoute Hdashboard);
      [reflexivity | reflexivity | exact Hanon]. }
  split.
  - intros result. subst result.
    rewrite LoginPage_handleSubmit_filled by assumption. cbn [fst snd].
    split; [reflexivity |]. split; [| split; [| apply Hrest]];
      rewrite exec_login_full by exact Hfits; reflexivity.
  - intros result. subst result.
    rewrite RegisterPage_handleSubmit_run. cbn [fst snd].
    split; [reflexivity |]. split; [| split; [| apply Hrest]];
      rewrite exec_login_full by exact Hfits; reflexivity.
Qed.

Lemma refused_submit_lands_on_login_witness :
  let env := {| random_base36 := lit "0.4fzyo82mvyr"; storage_fits := false |} in
  let w := {| state := {| user := JNull; isAuthenticated := false;
                          isLoading := false; error := None |};
              localStorage := ∅; dispatched := [] |} in
  (match_exact "/login" = Some LoginRoute /\ match_exact "/dashboard" = Some DashboardRoute
   /\ lit "ada@b.com" <> [] /\ lit "hunter2" <> [] /\ storage_fits env = false
   /\ isAuthenticated (state w) = false)
  /\ (let result := LoginPage_handleSubmit env (lit "ada@b.com") (lit "hunter2") w in
      fst result = inr (Some "/dashboard"%string)
      /\ localStorage (snd result) = localStorage w
      /\ error (state (snd result)) = Some failure_message
      /\ settle match_exact 3 (state (snd result)) "/dashboard"
         = Shows "/login" (Fragment LoginPage))
  /\ (let result := RegisterPage_handleSubmit env (lit "ada@b.com") (lit "Ada") w in
      fst result = inr (Some "/dashboard"%string)
      /\ localStorage (snd result) = localStorage w
      /\ error (state (snd result)) = Some failure_message
      /\ settle match_exact 3 (state (snd result)) "/dashboard"
         = Shows "/login" (Fragment LoginPage)).
Proof.
  intros env w.
  assert (He : lit "ada@b.com" <> []) by discriminate.
  assert (Hp : lit "hunter2" <> []) by discriminate.
  split; [repeat split; assumption |].
  exact (refused_submit_lands_on_login match_exact env (lit "ada@b.com") (lit "Ada")
           (lit "hunter2") w eq_refl eq_refl He Hp eq_refl eq_refl).
Defined.

(** X7. [handleSubmit] of [RegisterPage] tests none of its fields: for
    every email and name, the empty ones included, a submission whose
    write is accepted authenticates a user with exactly that email and
    that name, and the application rests on [Dashboard]. *)
Theorem register_form_success (matchRoute : string -> option RouteId) (env : Env)
    (email name : jsstring) (w : World) :
  matchRoute "/dashboard" = Some DashboardRoute ->
  storage_fits env = true ->
  let result := RegisterPage_handleSubmit env email name w in
  fst result = inr (Some "/dashboard"%string)
  /\ isAuthenticated (state (snd result)) = true
  /\ get (lit "email") (user (state (snd result))) = Some (JString email)
  /\ get (lit "name") (user (state (snd result))) = Some (JString name)
  /\ (JSON_parse <$> localStorage (snd result) !! auth_user)
     = Some (Some (user (state (snd result))))
  /\ settle matchRoute 3 (state (snd result)) "/dashboard"
     = Shows "/dashboard" (Fragment Dashboard).
Proof.
  intros Hdashboard Hfits result. subst result.
  rewrite RegisterPage_handleSubmit_run. cbn [fst snd].
  rewrite exec_login_fits by exact Hfits. cbn [state localStorage].
  split; [reflexivity |]. split; [reflexivity |].
  split; [reflexivity |]. split; [reflexivity |].
  split.
  - rewrite lookup_insert_eq. cbn [fmap option_fmap option_map].
    rewrite JSON_parse_stringify_user. reflexivity.
  - apply (settle_dashboard_authenticated matchRoute); [exact Hdashboard | |];
      reflexivity.
Qed.

Lemma register_form_success_witness :
  let env := {| random_base36 := lit "0.4fzyo82mvyr"; storage_fits := true |} in
  let result := RegisterPage_handleSubmit env [] [] (start ∅) in
  (match_exact "/dashboard" = Some DashboardRoute /\ storage_fits env = true)
  /\ fst result = inr (Some "/dashboard"%string)
  /\ isAuthenticated (state (snd result)) = true
  /\ get (lit "email") (user (state (snd result))) = Some (JString [])
  /\ get (lit "name") (user (state (snd result))) = Some (JString [])
  /\ (JSON_parse <$> localStorage (snd result) !! auth_user)
     = Some (Some (user (state (snd result))))
  /\ settle match_exact 3 (state (snd result)) "/dashboard"
     = Shows "/dashboard" (Fragment Dashboard).
Proof.
  intros env result. split; [split; reflexivity |].
  exact (register_form_success match_exact env [] [] (start ∅) eq_refl eq_refl).
Defined.

(** X14. No operation of the provider and no submit handler lets an
    exception escape: whatever the store holds and whether or not the
    browser accepts the write, bootstrap, [login] and [logout] return
    normally, and so do the two handlers, which therefore always reach
    their [navigate] call once [login] was called. *)
Theorem nothing_escapes (op : Op) (env : Env) (email name password : jsstring) (w : World) :
  fst (perform op w) = inr tt
  /\ fst (LoginPage_handleSubmit env email password w)
     = inr (if truthy (Some email) && truthy (Some password)
            then Some "/dashboard"%string else None)
  /\ fst (RegisterPage_handleSubmit env email name w) = inr (Some "/dashboard"%string).
Proof.
  split; [apply perform_returns |]. split.
  - unfold LoginPage_handleSubmit.
    destruct (truthy (Some email) && truthy (Some password)); [| reflexivity].
    rewrite login_then_ret. reflexivity.
  - rewrite RegisterPage_handleSubmit_run. reflexivity.
Qed.

(* ===================================================================== *)
(** ** The store mirrors the session *)
(* ===================================================================== *)

Section Persistence.

(** The mount effect brings state and store into agreement, from any
    world. *)
Lemma persisted_bootstrap (w : World) : persisted (exec bootstrap w).
Proof.
  unfold persisted. bootstrap_cases w; cbn [state localStorage authReducer isAuthenticated user].
  - split; assumption.
  - split; [reflexivity |]. rewrite lookup_delete_eq. reflexivity.
  - split; [reflexivity | assumption].
Qed.

Lemma persisted_perform (op : Op) (w : World) :
  persisted w -> persisted (exec (perform op) w).
Proof.
  intros Hok. destruct op as [| env email name |]; cbn [perform].
  - apply persisted_bootstrap.
  - unfold persisted in *. login_cases w env;
      cbn [state localStorage authReducer isAuthenticated user] in *.
    + rewrite lookup_insert_eq. split; [reflexivity |].
      cbn [to_string]. apply JSON_parse_stringify_user.
    + exact Hok.
  - unfold persisted. rewrite exec_logout.
    cbn [state localStorage authReducer isAuthenticated user].
    split; [reflexivity |]. rewrite lookup_delete_eq. reflexivity.
Qed.

Lemma persisted_run (ops : list Op) :
  forall w, persisted w -> persisted (run ops w).
Proof.
  induction ops as [| op ops IH]; intros w Hok; [exact Hok |].
  cbn [run fold_left]. apply IH, persisted_perform, Hok.
Qed.

(** A restart over an agreeing store restores the session. *)
Lemma restart_of_persisted (w : World) :
  persisted w ->
  isAuthenticated (state (start (localStorage w))) = isAuthenticated (state w)
  /\ user (state (start (localStorage w))) = user (state w).
Proof.
  unfold persisted, start. intros Hok.
  destruct (isAuthenticated (state w)).
  - destruct Hok as [Htruthy Hparse].
    rewrite (exec_bootstrap_parsed _ (user (state w))); [split; reflexivity | |];
      cbn [mount localStorage]; assumption.
  - destruct Hok as [Huser Hfalsy].
    rewrite exec_bootstrap_falsy by (cbn [mount localStorage]; exact Hfalsy).
    cbn [state authReducer isAuthenticated user]. split; [reflexivity |].
    symmetry. exact Huser.
Qed.

End Persistence.

(** X8. The store mirrors the session. After process start and any
    sequence of operations (bootstrap again, login with either outcome,
    logout), a restart over the store as it stands gives back the same
    [isAuthenticated] and the same [user]; and a state is authenticated
    or has no user. *)
Theorem session_survives_restart (store : gmap jsstring jsstring) (ops : list Op) :
  isAuthenticated (state (start (localStorage (run ops (start store)))))
    = isAuthenticated (state (run ops (start store)))
  /\ user (state (start (localStorage (run ops (start store)))))
     = user (state (run ops (start store)))
  /\ (isAuthenticated (state (run ops (start store))) = true
      \/ user (state (run ops (start store))) = JNull).
Proof.
  assert (Hok : persisted (run ops (start store)))
    by apply persisted_run, persisted_bootstrap.
  destruct (restart_of_persisted _ Hok) as [Hauth Huser].
  split; [exact Hauth |]. split; [exact Huser |].
  unfold persisted in Hok.
  destruct (isAuthenticated (state (run ops (start store))));
    [left; reflexivity | right; apply Hok].
Qed.

(* ===================================================================== *)
(** ** When [isLoading] is resolved *)
(* ===================================================================== *)

Section Loading.

Lemma loading_rule_perform (op : Op) (w : World) :
  loading_means_no_record w ->
  loading_means_no_record (exec (perform op) w)
  /\ isLoading (state (exec (perform op) w)) = isLoading (state w) && negb (is_login op).
Proof.
  unfold loading_means_no_record. intros Hinv.
  destruct op as [| env email name |]; cbn [perform is_login negb].
  - bootstrap_cases w; cbn [state localStorage authReducer isLoading].
    + split; [intros Hf; discriminate Hf |].
      destruct (isLoading (state w)); [| reflexivity].
      specialize (Hinv eq_refl). discriminate Hinv.
    + split; [intros _; rewrite lookup_delete_eq; reflexivity |].
      rewrite andb_true_r. reflexivity.
    + split; [intros _; exact Htruthy |]. rewrite andb_true_r. reflexivity.
  - login_cases w env; cbn [state authReducer isLoading];
      (split; [intros Hf; discriminate Hf | rewrite andb_false_r; reflexivity]).
  - rewrite exec_logout. cbn [state localStorage authReducer isLoading].
    split; [intros _; rewrite lookup_delete_eq; reflexivity |].
    rewrite andb_true_r. reflexivity.
Qed.

Lemma loading_rule_run (ops : list Op) :
  forall w, loading_means_no_record w ->
            isLoading (state (run ops w))
            = isLoading (state w) && negb (existsb is_login ops).
Proof.
  induction ops as [| op ops IH]; intros w Hinv.
  - cbn. rewrite andb_true_r. reflexivity.
  - cbn [run fold_left existsb].
    destruct (loading_rule_perform op w Hinv) as [Hinv' Hstep].
    change (fold_left (fun w0 op0 => exec (perform op0) w0) ops (exec (perform op) w))
      with (run ops (exec (perform op) w)).
    rewrite (IH _ Hinv'), Hstep, negb_orb, andb_assoc. reflexivity.
Qed.

Lemma loading_rule_start (store : gmap jsstring jsstring) :
  loading_means_no_record (start store).
Proof.
  unfold loading_means_no_record, start.
  bootstrap_cases (mount store); cbn [state localStorage authReducer isLoading mount] in *.
  - discriminate.
  - intros _. rewrite lookup_delete_eq. reflexivity.
  - intros _. exact Htruthy.
Qed.

End Loading.

(** X9. When [isLoading] is resolved. After process start and any
    sequence of operations, [isLoading] is [false] exactly when a login
    has completed among them or the store held, at start, a non-empty
    record that [JSON.parse] accepts. Logout never resolves it, and
    neither does a bootstrap that finds no such record. *)
Theorem loading_resolved_iff (store : gmap jsstring jsstring) (ops : list Op) :
  isLoading (state (run ops (start store))) = false
  <-> existsb is_login ops = true
      \/ exists text v,
           store !! auth_user = Some text /\ text <> [] /\ JSON_parse text = Some v.
Proof.
  rewrite (loading_rule_run ops (start store) (loading_rule_start store)).
  rewrite <- bootstrap_resolves_iff.
  destruct (isLoading (state (start store))), (existsb is_login ops); cbn;
    intuition discriminate.
Qed.

(* ===================================================================== *)
(** ** [Button] and [Input] *)
(* ===================================================================== *)

Section Components.

Import UI.

Variable cn : list string -> string.

Lemma button_rest_lookup (others : gmap string PropValue) (k : string) :
  k ∉ button_own -> foldr delete others button_own !! k = others !! k.
Proof.
  intros Hk. unfold button_own in *. cbn [foldr].
  rewrite !lookup_delete_ne; [reflexivity | | | | |];
    intros <-; apply Hk; set_solver.
Qed.

Lemma input_rest_lookup (others : gmap string PropValue) (k : string) :
  k ∉ input_own -> foldr delete others input_own !! k = others !! k.
Proof.
  intros Hk. unfold input_own in *. cbn [foldr].
  rewrite !lookup_delete_ne; [reflexivity | | | | |];
    intros <-; apply Hk; set_solver.
Qed.

Lemma input_rest_type (others : gmap string PropValue) :
  foldr delete others input_own !! "type"%string = None.
Proof.
  unfold input_own. cbn [foldr].
  rewrite !lookup_delete_ne by discriminate. apply lookup_delete_eq.
Qed.

Lemma after_clicks_odd (n : nat) : after_clicks n = Nat.odd n.
Proof.
  induction n as [| n IH]; [reflexivity |].
  cbn [after_clicks]. unfold toggle_click. rewrite IH, Nat.odd_succ, Nat.negb_odd.
  reflexivity.
Qed.

Lemma disabled_not_own : "disabled"%string ∉ button_own.
Proof.
  unfold button_own. intros Hin.
  repeat (apply elem_of_cons in Hin as [Hin | Hin]; [discriminate Hin |]).
  inversion Hin.
Qed.

Lemma button_disabled_rule_aux {C : Type} (children : C) (variant : option Variant)
    (size : option Size) (isLoading : option bool) (className : option string)
    (others : gmap string PropValue) :
  button_disabled (Button cn children variant size isLoading className others) =
  match others !! "disabled"%string with
  | Some v => prop_truthy v
  | None => prop_truthy (of_flag isLoading)
  end.
Proof.
  unfold button_disabled, Button, prop. cbn [button_props].
  rewrite lookup_union, button_rest_lookup by exact disabled_not_own.
  destruct (others !! "disabled"%string) as [v |] eqn:Hd.
  - reflexivity.
  - rewrite lookup_insert_eq. cbn. unfold js_or.
    destruct (prop_truthy (of_flag isLoading)) eqn:Ht; [exact Ht | reflexivity].
Qed.

End Components.

(** X10. [Button]: when the caller passes no [disabled] prop the button
    is disabled exactly when [isLoading] is [true]; when the caller
    passes one, it alone decides, whatever [isLoading] is, because the
    spread of the remaining props comes after [disabled] in the JSX. The
    spinner is rendered exactly when [isLoading] is [true], in both
    cases, and every other remaining prop reaches the [<button>]
    unchanged. *)
Theorem button_disabled_rule {C : Type} (cn : list string -> string) (children : C)
    (variant : option UI.Variant) (size : option UI.Size) (isLoading : option bool)
    (className : option string) (others : gmap string UI.PropValue) :
  UI.button_disabled (UI.Button cn children variant size isLoading className others)
  = match others !! "disabled"%string with
    | Some v => UI.prop_truthy v
    | None => bool_decide (isLoading = Some true)
    end
  /\ UI.button_spinner (UI.Button cn children variant size isLoading className others)
     = bool_decide (isLoading = Some true)
  /\ (forall k : string,
        k ∉ UI.button_own -> k <> "disabled"%string -> k <> "className"%string ->
        UI.button_props (UI.Button cn children variant size isLoading className others) !! k
        = others !! k).
Proof.
  assert (Hflag : UI.prop_truthy (UI.of_flag isLoading) = bool_decide (isLoading = Some true))
    by (destruct isLoading as [[|] |]; reflexivity).
  split; [| split].
  - rewrite button_disabled_rule_aux, Hflag. reflexivity.
  - cbn [UI.Button UI.button_spinner]. exact Hflag.
  - intros k Hown Hd Hc. unfold UI.Button. cbn [UI.button_props].
    rewrite lookup_union, button_rest_lookup by exact Hown.
    rewrite lookup_insert_ne, lookup_singleton_ne by congruence.
    destruct (others !! k); reflexivity.
Qed.

(** A loading button that is passed [disabled={false}] shows the
    spinner and stays enabled. *)
Lemma button_loading_yet_enabled (cn : list string -> string) :
  let e := UI.Button cn tt None None (Some true) None
             {[ "disabled"%string := UI.VBool false ]} in
  UI.button_spinner e = true /\ UI.button_disabled e = false.
Proof. intros e. split; [reflexivity |]. subst e. rewrite button_disabled_rule_aux.
  rewrite lookup_singleton_eq. reflexivity.
Qed.

(** X11. [Input]: a field of type [password] is rendered masked at
    first, and after [n] clicks on its toggle it is rendered as text
    exactly when [n] is odd, the toggle showing the matching icon; a
    field of any other type is rendered with its own type and without a
    toggle, whatever the toggle state. A [type] among the remaining
    props cannot override this: [type] is destructured out of them. *)
Theorem input_password_toggle (cn : list string -> string)
    (label error containerClassName className : option string)
    (others : gmap string UI.PropValue) :
  (forall n : nat,
     let e := UI.Input cn label error containerClassName className
                (Some "password"%string) others (UI.after_clicks n) in
     UI.prop (UI.input_props e) "type"
       = UI.VString (if Nat.odd n then "text" else "password")
     /\ UI.input_toggle e = Some (if Nat.odd n then UI.EyeOff else UI.Eye))
  /\ (forall (type : option string) (showPassword : bool),
        type <> Some "password"%string ->
        let e := UI.Input cn label error containerClassName className
                   type others showPassword in
        UI.prop (UI.input_props e) "type" = UI.of_text type
        /\ UI.input_toggle e = None).
Proof.
  split.
  - intros n e. subst e. rewrite after_clicks_odd.
    unfold UI.Input, UI.prop. cbn [UI.input_props UI.input_toggle].
    rewrite lookup_union, input_rest_type, lookup_insert_ne, lookup_singleton_eq
      by discriminate.
    rewrite bool_decide_eq_true_2 by reflexivity.
    destruct (Nat.odd n); split; reflexivity.
  - intros type showPassword Hne e. subst e.
    unfold UI.Input, UI.prop. cbn [UI.input_props UI.input_toggle].
    rewrite lookup_union, input_rest_type, lookup_insert_ne, lookup_singleton_eq
      by discriminate.
    rewrite bool_decide_eq_false_2 by exact Hne.
    split; reflexivity.
Qed.

(* ===================================================================== *)
(** ** The insight service *)
(* ===================================================================== *)

Section Trim.

Import Insight.









End Trim.

(** X12. Without an API key ([process.env.API_KEY] undefined or empty)
    the service never calls the remote model: no prompt, and so no
    user name, leaves the application; it logs one warning and one
    error and returns the fallback text at the random index. With a key
    it calls the model exactly once, with the prompt built from the
    user name, whatever the model answers. *)
Theorem insight_requests (env : Insight.Env) (userName : jsstring) (w : Insight.World) :
  if truthy (Insight.API_KEY env) then
    Insight.requests (snd (Insight.getSecurityInsight env userName w))
    = Insight.requests w ++ [Insight.prompt userName]
  else
    fst (Insight.getSecurityInsight env userName w)
      = Insight.fallbacks !! Insight.fallback_index env
    /\ Insight.requests (snd (Insight.getSecurityInsight env userName w))
       = Insight.requests w
    /\ Insight.console (snd (Insight.getSecurityInsight env userName w))
       = Insight.console w
         ++ [Insight.Warn "Gemini API key is missing. AI insights will be mocked.";
             Insight.Error "Gemini Service Error:" Insight.NoAIInitialized].
Proof.
  unfold Insight.getSecurityInsight, Insight.attempt, Insight.getAI.
  destruct (truthy (Insight.API_KEY env)) eqn:Hkey.
  - destruct (Insight.API_KEY env) as [key |]; [| discriminate Hkey].
    destruct (Insight.generateContent env (Insight.prompt userName)); reflexivity.
  - cbn [fst snd Insight.console Insight.requests].
    rewrite <- app_assoc. repeat split.
Qed.



(** With an index outside the table the failure path returns
    [undefined]: the bound on the index is needed. *)
Lemma insight_undefined_out_of_range :
  let env := {| Insight.API_KEY := None;
                Insight.generateContent := fun _ => Insight.Rejects;
                Insight.fallback_index := 3 |} in
  fst (Insight.getSecurityInsight env (lit "ada")
         {| Insight.console := []; Insight.requests := [] |}) = None.
Proof. reflexivity. Qed.
